(** * showthem: the storage layer of the groups/videos server

    A shallow embedding of the three storage implementations of the
    repository:

    - [FileStorage]   the [fileStorage] object of the monolithic server
                      (one JSON document, read-modify-write on every call);
    - [PgStorage]     the [createPgStorage(pool)] adapter of the same file;
    - [Db]            the standalone [lib/db] module used by the serverless
                      handlers under [api/].

    JavaScript objects are finite maps from property names to JSON values,
    arrays are lists, the data file is the document it holds, and the
    PostgreSQL database is a pair of tables with the constraints that the
    [CREATE TABLE] statements of [init] declare. *)

From stdpp Require Import base option list sorting pretty strings gmap.

Local Open Scope string_scope.
Local Open Scope list_scope.
Local Open Scope Z_scope.

(** ** JavaScript values *)

(** The values a parsed JSON request body puts into a record field.  Numbers
    are the integers that JavaScript prints as plain decimal numerals (those
    below 10^21 in size); nested arrays and objects do not occur in the
    fields the storage layer reads. *)
Inductive value :=
  | VNull
  | VBool (b : bool)
  | VNum (n : Z)
  | VStr (s : string).

Global Instance value_eq_dec : EqDecision value.
Proof. solve_decision. Defined.

(** An object; reading a property gives [None] where JavaScript gives
    [undefined]. *)
Abbreviation obj := (gmap string value).

(** [ToBoolean]. *)
Definition truthy (v : option value) : bool :=
  match v with
  | None | Some VNull => false
  | Some (VBool b) => b
  | Some (VNum n) => negb (Z.eqb n 0)
  | Some (VStr s) => negb (bool_decide (s = ""))
  end.

(** [a || b]. *)
Definition js_or (a b : option value) : option value :=
  if truthy a then a else b.

(** [a === b], on primitives. *)
Definition strict_eq (a b : option value) : bool := bool_decide (a = b).

(** [{ ...a, ...b }]: the properties of [b] win. *)
Definition spread (a b : obj) : obj := b ∪ a.

(** [o.k = v], where [v] may be [undefined]. *)
Definition assign (k : string) (v : option value) (o : obj) : obj :=
  match v with
  | Some x => <[k := x]> o
  | None => delete k o
  end.

(** [arr.findIndex(p)], with [None] for [-1]. *)
Definition findIndex {A} (p : A → bool) (arr : list A) : option nat :=
  fst <$> list_find (λ x, p x = true) arr.

(** [n.toString()] for an integer. *)
Definition toString (n : Z) : string := pretty n.

(** The snapshot [{ groups, videos }]. *)
Record dataset := Dataset { groups : list obj; videos : list obj }.

(** The body of a bulk-import request: either array may be missing. *)
Record body := Body {
  body_groups : option (list obj);
  body_videos : option (list obj);
}.

(** ** The flat-file backend *)

Module FileStorage.

(** The file [data.json] is the document it holds; [getData] parses it
    afresh on every call and [saveData] rewrites it, so a call works on
    its own copy.  The document has both arrays, as [init] creates it. *)

Definition getData (file : dataset) : dataset := file.

Definition saveData (data : dataset) (file : dataset) : dataset := data.

Definition getGroups (file : dataset) : list obj := groups (getData file).

Definition createGroup (group : obj) (file : dataset) : obj * dataset :=
  let data := getData file in
  let data := Dataset (groups data ++ [group]) (videos data) in
  (group, saveData data file).

Definition updateGroup (id : string) (updates : obj) (file : dataset)
  : option obj * dataset :=
  let data := getData file in
  match findIndex (λ g, strict_eq (g !! "id") (Some (VStr id))) (groups data) with
  | None => (None, file)
  | Some index =>
      let videos' :=
        if truthy (updates !! "id")
           && negb (strict_eq (updates !! "id") (Some (VStr id)))
        then (λ v, if strict_eq (v !! "groupId") (Some (VStr id))
                   then assign "groupId" (updates !! "id") v else v)
               <$> videos data
        else videos data in
      let groups' :=
        match groups data !! index with
        | Some g => <[index := spread g updates]> (groups data)
        | None => groups data
        end in
      let data := Dataset groups' videos' in
      (groups data !! index, saveData data file)
  end.

Definition deleteGroup (id : string) (file : dataset) : bool * dataset :=
  let data := getData file in
  match findIndex (λ g, strict_eq (g !! "id") (Some (VStr id))) (groups data) with
  | None => (false, file)
  | Some index =>
      let groups' := delete index (groups data) in
      let videos' :=
        filter (λ v, strict_eq (v !! "groupId") (Some (VStr id)) = false)
               (videos data) in
      (true, saveData (Dataset groups' videos') file)
  end.

Definition getVideos (file : dataset) : list obj := videos (getData file).

(** [now] is the value [Date.now()] returns during the call. *)
Definition createVideo (now : Z) (video : obj) (file : dataset)
  : obj * dataset :=
  let data := getData file in
  let video := <["id" := VStr (toString now)]> video in
  let data := Dataset (groups data) (videos data ++ [video]) in
  (video, saveData data file).

Definition updateVideo (id : string) (updates : obj) (file : dataset)
  : option obj * dataset :=
  let data := getData file in
  match findIndex (λ v, strict_eq (v !! "id") (Some (VStr id))) (videos data) with
  | None => (None, file)
  | Some index =>
      let videos' :=
        match videos data !! index with
        | Some v => <[index := spread v updates]> (videos data)
        | None => videos data
        end in
      let data := Dataset (groups data) videos' in
      (videos data !! index, saveData data file)
  end.

Definition deleteVideo (id : string) (file : dataset) : bool * dataset :=
  let data := getData file in
  match findIndex (λ v, strict_eq (v !! "id") (Some (VStr id))) (videos data) with
  | None => (false, file)
  | Some index =>
      (true, saveData (Dataset (groups data) (delete index (videos data))) file)
  end.

End FileStorage.

(** ** The database server behind [pool.query] *)

Inductive sqlstate :=
  | unique_violation
  | not_null_violation
  | foreign_key_violation
  | string_data_right_truncation
  | invalid_text_representation
  | numeric_value_out_of_range
  | sequence_generator_limit_exceeded.

Inductive error :=
  | TypeError
  | NotConfigured            (* Error('DATABASE_URL not configured') *)
  | DatabaseError (code : sqlstate).

Inductive result (A : Type) :=
  | Ok (a : A)
  | Throw (e : error).
Arguments Ok {A} a.
Arguments Throw {A} e.

Global Instance result_ret : MRet result := @Ok.
Global Instance result_bind : MBind result := λ A B f m,
  match m with Ok a => f a | Throw e => Throw e end.

Definition guard_sql (b : bool) (code : sqlstate) : result unit :=
  if b then Ok () else Throw (DatabaseError code).

(** What a server does that the repository does not decide: how it reads an
    integer from the text of a bind parameter, and the collation its
    [ORDER BY] compares names with. *)
Class Server := {
  int4in : string → result Z;
  collate_le : relation string;
  collate_dec :: RelDecision collate_le;
  collate_total :: Total collate_le;
  collate_trans :: Transitive collate_le;
}.

Module Postgres.

(** The two tables of [init], rows in heap order, and the sequence behind
    the [SERIAL] column. *)
Record group_row := GroupRow {
  g_id : string;                    (* VARCHAR(255) PRIMARY KEY *)
  g_name : string;                  (* VARCHAR(255) NOT NULL *)
  g_description : option string;    (* TEXT *)
}.

Record video_row := VideoRow {
  v_id : Z;                         (* SERIAL PRIMARY KEY *)
  v_group_id : option string;       (* VARCHAR(255) REFERENCES groups(id)
                                       ON DELETE CASCADE *)
  v_url : string;                   (* TEXT NOT NULL *)
  v_username : string;              (* VARCHAR(255) NOT NULL *)
  v_caption : option string;        (* TEXT *)
  v_description : option string;    (* TEXT *)
}.

Record database := Database {
  groups : list group_row;
  videos : list video_row;
  videos_id_seq : Z;                (* the value the next [nextval] gives *)
}.

Global Instance group_row_eq_dec : EqDecision group_row.
Proof. solve_decision. Defined.
Global Instance video_row_eq_dec : EqDecision video_row.
Proof. solve_decision. Defined.

(** A storage method: it runs against the database and either returns or
    throws; what it wrote before throwing stays (no method opens a
    transaction). *)
Definition query (A : Type) : Type := database → result A * database.

Global Instance query_ret : MRet query := λ A a db, (Ok a, db).
Global Instance query_bind : MBind query := λ A B f m db,
  match m db with
  | (Ok a, db') => f a db'
  | (Throw e, db') => (Throw e, db')
  end.

Global Instance query_fmap : FMap query := λ A B f m,
  m ≫= λ a, mret (f a).

Definition throw {A} (e : error) : query A := λ db, (Throw e, db).

(** One SQL statement: all of its effect or, on an error, none. *)
Definition statement {A} (s : database → result (A * database)) : query A :=
  λ db, match s db with
        | Ok (a, db') => (Ok a, db')
        | Throw e => (Throw e, db)
        end.

(** [for (const x of xs) await body(x)]. *)
Fixpoint for_each {A} (xs : list A) (body : A → query unit) : query unit :=
  match xs with
  | [] => mret ()
  | x :: xs' => body x ≫= λ _, for_each xs' body
  end.

(** How the driver sends a JavaScript value as a bind parameter:
    [null] and [undefined] as NULL, anything else as its text. *)
Definition prepareValue (v : option value) : option string :=
  match v with
  | None | Some VNull => None
  | Some (VBool b) => Some (if b then "true" else "false")
  | Some (VNum n) => Some (toString n)
  | Some (VStr s) => Some s
  end.

Fixpoint all_spaces (s : string) : bool :=
  match s with
  | EmptyString => true
  | String c s' => bool_decide (String c "" = " ") && all_spaces s'
  end.

(** Assignment to a [VARCHAR(255)] column: an over-long text is an error
    unless only spaces are cut off.  A text is the sequence of its
    characters, which is what the limit counts. *)
Definition varchar255 (v : option string) : result (option string) :=
  match v with
  | None => Ok None
  | Some s =>
      if bool_decide (String.length s ≤ 255)%nat then Ok (Some s)
      else if all_spaces (String.substring 255 (String.length s - 255) s)
      then Ok (Some (String.substring 0 255 s))
      else Throw (DatabaseError string_data_right_truncation)
  end.

Global Arguments varchar255 : simpl never.

Definition not_null (v : option string) : result string :=
  match v with
  | Some s => Ok s
  | None => Throw (DatabaseError not_null_violation)
  end.

Definition int4_max : Z := 2147483647.

(** [nextval('videos_id_seq')]; the value is used up even when the
    statement that asked for it fails. *)
Definition nextval : query Z := λ db,
  if bool_decide (videos_id_seq db ≤ int4_max)
  then (Ok (videos_id_seq db),
        Database (groups db) (videos db) (videos_id_seq db + 1))
  else (Throw (DatabaseError sequence_generator_limit_exceeded), db).

(** [DELETE FROM videos] *)
Definition delete_videos : query nat :=
  statement (λ db,
    Ok (length (videos db), Database (groups db) [] (videos_id_seq db))).

(** [DELETE FROM groups WHERE ...]; the rows of [videos] that reference a
    deleted group go with it ([ON DELETE CASCADE]).  The row count is that
    of [groups] alone. *)
Definition delete_groups_where
    (cond : group_row → Prop) `{!∀ g, Decision (cond g)} : query nat :=
  statement (λ db,
    let gone := filter cond (groups db) in
    let kept := filter (λ g, ¬ cond g) (groups db) in
    Ok (length gone,
        Database kept
          (filter (λ v, v_group_id v ∉ Some ∘ g_id <$> gone) (videos db))
          (videos_id_seq db))).

(** [DELETE FROM groups] *)
Definition delete_groups : query nat := delete_groups_where (λ _, True).

(** [INSERT INTO groups (id, name, description) VALUES ($1, $2, $3)] *)
Definition insert_group (id name description : option string) : query unit :=
  statement (λ db,
    id ← varchar255 id;
    name ← varchar255 name;
    id ← not_null id;
    name ← not_null name;
    _ ← guard_sql (bool_decide (id ∉ g_id <$> groups db)) unique_violation;
    Ok ((), Database (groups db ++ [GroupRow id name description])
                     (videos db) (videos_id_seq db))).

Definition references_ok (db : database) (group_id : option string) : bool :=
  match group_id with
  | None => true
  | Some g => bool_decide (g ∈ g_id <$> groups db)
  end.

(** What the server works out from the parameters when it plans a statement,
    before the statement runs: an error there leaves everything as it was,
    the sequence included. *)
Definition planned {A} (r : result A) : query A := λ db, (r, db).

(** [INSERT INTO videos (group_id, url, username, caption, description)
     VALUES ($1, $2, $3, $4, $5) RETURNING id].  The texts are fitted to
    their columns when the statement is planned; the sequence is asked when
    it runs. *)
Definition insert_video
    (group_id url username caption description : option string) : query Z :=
  group_id ← planned (varchar255 group_id);
  username ← planned (varchar255 username);
  id ← nextval;
  statement (λ db,
    url ← not_null url;
    username ← not_null username;
    _ ← guard_sql (bool_decide (id ∉ v_id <$> videos db)) unique_violation;
    _ ← guard_sql (references_ok db group_id) foreign_key_violation;
    Ok (id, Database (groups db)
              (videos db ++ [VideoRow id group_id url username caption description])
              (videos_id_seq db))).

(** [UPDATE groups SET id = $1, name = $2, description = $3 WHERE id = $4
     RETURNING *].  The texts are fitted to their columns when the statement
    is planned, before any row is looked at.  The primary key leaves at most
    one row to update.  The foreign key of [videos] has no [ON UPDATE]
    action, so a key that is still referenced cannot change. *)
Definition update_groups
    (id name description : option string) (where_id : string)
  : query (list group_row) :=
  statement (λ db,
    id ← varchar255 id;
    name ← varchar255 name;
    let hit := filter (λ g, g_id g = where_id) (groups db) in
    let others := filter (λ g, g_id g ≠ where_id) (groups db) in
    match hit with
    | [] => Ok ([], db)
    | _ :: _ =>
        id ← not_null id;
        name ← not_null name;
        let row := GroupRow id name description in
        _ ← guard_sql (bool_decide (id ∉ g_id <$> others)) unique_violation;
        _ ← guard_sql (bool_decide (id = where_id)
                       || bool_decide (Some where_id ∉ v_group_id <$> videos db))
                      foreign_key_violation;
        Ok ((λ _, row) <$> hit,
            Database ((λ g, if bool_decide (g_id g = where_id) then row else g)
                        <$> groups db)
                     (videos db) (videos_id_seq db))
    end).

(** [UPDATE videos SET group_id = $1, url = $2, username = $3,
     caption = $4, description = $5 WHERE id = $6 RETURNING ...].  The id is
    read when the parameters are bound and the texts are fitted to their
    columns when the statement is planned, before any row is looked at. *)
Definition update_videos `{Server}
    (group_id url username caption description : option string)
    (where_id : string) : query (list video_row) :=
  statement (λ db,
    n ← int4in where_id;
    group_id ← varchar255 group_id;
    username ← varchar255 username;
    let hit := filter (λ v, v_id v = n) (videos db) in
    match hit with
    | [] => Ok ([], db)
    | _ :: _ =>
        url ← not_null url;
        username ← not_null username;
        let set v :=
          VideoRow (v_id v) group_id url username caption description in
        _ ← guard_sql
              (forallb (λ v, bool_decide (v_group_id v = group_id)
                             || references_ok db group_id) hit)
              foreign_key_violation;
        Ok (set <$> hit,
            Database (groups db)
              ((λ v, if bool_decide (v_id v = n) then set v else v)
                 <$> videos db)
              (videos_id_seq db))
    end).

(** [DELETE FROM videos WHERE id = $1] *)
Definition delete_videos_where `{Server} (where_id : string) : query nat :=
  statement (λ db,
    n ← int4in where_id;
    Ok (length (filter (λ v, v_id v = n) (videos db)),
        Database (groups db) (filter (λ v, v_id v ≠ n) (videos db))
                 (videos_id_seq db))).

Definition by_name `{Server} : relation group_row :=
  λ g1 g2, collate_le (g_name g1) (g_name g2).
Global Instance by_name_dec `{Server} : RelDecision by_name.
Proof. intros g1 g2. unfold by_name. apply _. Defined.

Definition by_id : relation video_row := λ v1 v2, v_id v1 ≤ v_id v2.
Global Instance by_id_dec : RelDecision by_id.
Proof. intros v1 v2. unfold by_id. apply _. Defined.

(** [SELECT * FROM groups ORDER BY name]; rows of equal name come in an
    order the server does not promise, here the one the merge sort gives. *)
Definition select_groups `{Server} : query (list group_row) := λ db,
  (Ok (merge_sort by_name (groups db)), db).

(** [SELECT ... FROM videos ORDER BY id] *)
Definition select_videos : query (list video_row) := λ db,
  (Ok (merge_sort by_id (videos db)), db).

(** Rows as the driver hands them to JavaScript. *)
Definition nullable (v : option string) : value :=
  match v with Some s => VStr s | None => VNull end.

Definition group_obj (g : group_row) : obj :=
  {[ "id" := VStr (g_id g);
     "name" := VStr (g_name g);
     "description" := nullable (g_description g) ]}.

(** with [group_id as "groupId"] *)
Definition video_obj (v : video_row) : obj :=
  {[ "id" := VNum (v_id v);
     "groupId" := nullable (v_group_id v);
     "url" := VStr (v_url v);
     "username" := VStr (v_username v);
     "caption" := nullable (v_caption v);
     "description" := nullable (v_description v) ]}.

End Postgres.

(** ** The relational backend: [createPgStorage(pool)] *)

Module PgStorage.
Section adapter.
Context `{Server}.
Import Postgres.

(** [for (const x of xs)] evaluates [xs] and throws on [undefined]. *)
Definition iterable {A} (xs : option (list A)) : query (list A) :=
  match xs with
  | Some l => mret l
  | None => throw TypeError
  end.

Definition getGroups : query (list obj) :=
  rows ← select_groups;
  mret (group_obj <$> rows).

Definition getVideos : query (list obj) :=
  rows ← select_videos;
  mret ((λ v, <["id" := VStr (toString (v_id v))]> (video_obj v)) <$> rows).

Definition getData : query dataset :=
  groups ← getGroups;
  videos ← getVideos;
  mret (Dataset groups videos).

Definition saveData (data : body) : query unit :=
  _ ← delete_videos;
  _ ← delete_groups;
  gs ← iterable (body_groups data);
  _ ← for_each gs (λ group,
        insert_group (prepareValue (group !! "id"))
                     (prepareValue (group !! "name"))
                     (prepareValue (js_or (group !! "description") (Some VNull))));
  vs ← iterable (body_videos data);
  for_each vs (λ video,
    _ ← insert_video (prepareValue (video !! "groupId"))
                     (prepareValue (video !! "url"))
                     (prepareValue (video !! "username"))
                     (prepareValue (js_or (video !! "caption") (Some VNull)))
                     (prepareValue (js_or (video !! "description") (Some VNull)));
    mret ()).

Definition createGroup (group : obj) : query obj :=
  _ ← insert_group (prepareValue (group !! "id"))
                   (prepareValue (group !! "name"))
                   (prepareValue (js_or (group !! "description") (Some VNull)));
  mret group.

Definition updateGroup (id : string) (updates : obj) : query (option obj) :=
  rows ← update_groups
            (prepareValue (js_or (updates !! "id") (Some (VStr id))))
            (prepareValue (updates !! "name"))
            (prepareValue (js_or (updates !! "description") (Some VNull)))
            id;
  mret (group_obj <$> head rows).

Definition deleteGroup (id : string) : query bool :=
  rowCount ← delete_groups_where (λ g, g_id g = id);
  mret (bool_decide (0 < rowCount)%nat).

Definition createVideo (video : obj) : query obj :=
  id ← insert_video (prepareValue (video !! "groupId"))
                    (prepareValue (video !! "url"))
                    (prepareValue (video !! "username"))
                    (prepareValue (js_or (video !! "caption") (Some VNull)))
                    (prepareValue (js_or (video !! "description") (Some VNull)));
  mret (<["id" := VStr (toString id)]> video).

Definition updateVideo (id : string) (updates : obj) : query (option obj) :=
  rows ← update_videos
            (prepareValue (updates !! "groupId"))
            (prepareValue (updates !! "url"))
            (prepareValue (updates !! "username"))
            (prepareValue (js_or (updates !! "caption") (Some VNull)))
            (prepareValue (js_or (updates !! "description") (Some VNull)))
            id;
  mret ((λ v, <["id" := VStr (toString (v_id v))]> (video_obj v)) <$> head rows).

Definition deleteVideo (id : string) : query bool :=
  rowCount ← delete_videos_where id;
  mret (bool_decide (0 < rowCount)%nat).

End adapter.
End PgStorage.

(** ** The relational backend: the standalone [lib/db] module *)

Module Db.
Section module.
Context `{Server}.
Import Postgres.

(** [process.env.DATABASE_URL] *)
Variable DATABASE_URL : option string.

(** [getPool()]: the pool, or [null] ([false]) without a connection
    string. *)
Definition getPool : bool := truthy (VStr <$> DATABASE_URL).

(** [db.query(...)], a [TypeError] on [null]. *)
Definition db_query {A} (db : bool) (q : query A) : query A :=
  if db then q else throw TypeError.

Definition getData : query dataset :=
  let db := getPool in
  if negb db then throw NotConfigured else
  groups ← db_query db select_groups;
  videos ← db_query db select_videos;
  mret (Dataset (group_obj <$> groups)
          ((λ v, <["id" := VStr (toString (v_id v))]> (video_obj v)) <$> videos)).

Definition saveData (data : body) : query unit :=
  let db := getPool in
  if negb db then throw NotConfigured else
  _ ← db_query db delete_videos;
  _ ← db_query db delete_groups;
  _ ← for_each (default [] (body_groups data)) (λ group,
        db_query db
          (insert_group (prepareValue (group !! "id"))
                        (prepareValue (group !! "name"))
                        (prepareValue (js_or (group !! "description") (Some VNull)))));
  for_each (default [] (body_videos data)) (λ video,
    _ ← db_query db
          (insert_video (prepareValue (video !! "groupId"))
                        (prepareValue (video !! "url"))
                        (prepareValue (video !! "username"))
                        (prepareValue (js_or (video !! "caption") (Some VNull)))
                        (prepareValue (js_or (video !! "description") (Some VNull))));
    mret ()).

Definition getGroups : query (list obj) :=
  let db := getPool in
  rows ← db_query db select_groups;
  mret (group_obj <$> rows).

Definition createGroup (group : obj) : query obj :=
  let db := getPool in
  _ ← db_query db
        (insert_group (prepareValue (group !! "id"))
                      (prepareValue (group !! "name"))
                      (prepareValue (js_or (group !! "description") (Some VNull))));
  mret group.

Definition updateGroup (id : string) (updates : obj) : query (option obj) :=
  let db := getPool in
  rows ← db_query db
           (update_groups
              (prepareValue (js_or (updates !! "id") (Some (VStr id))))
              (prepareValue (updates !! "name"))
              (prepareValue (js_or (updates !! "description") (Some VNull)))
              id);
  mret (group_obj <$> head rows).

Definition deleteGroup (id : string) : query bool :=
  let db := getPool in
  rowCount ← db_query db (delete_groups_where (λ g, g_id g = id));
  mret (bool_decide (0 < rowCount)%nat).

Definition getVideos : query (list obj) :=
  let db := getPool in
  rows ← db_query db select_videos;
  mret ((λ v, <["id" := VStr (toString (v_id v))]> (video_obj v)) <$> rows).

Definition createVideo (video : obj) : query obj :=
  let db := getPool in
  id ← db_query db
         (insert_video (prepareValue (video !! "groupId"))
                       (prepareValue (video !! "url"))
                       (prepareValue (video !! "username"))
                       (prepareValue (js_or (video !! "caption") (Some VNull)))
                       (prepareValue (js_or (video !! "description") (Some VNull))));
  mret (<["id" := VStr (toString id)]> video).

Definition updateVideo (id : string) (updates : obj) : query (option obj) :=
  let db := getPool in
  rows ← db_query db
           (update_videos
              (prepareValue (updates !! "groupId"))
              (prepareValue (updates !! "url"))
              (prepareValue (updates !! "username"))
              (prepareValue (js_or (updates !! "caption") (Some VNull)))
              (prepareValue (js_or (updates !! "description") (Some VNull)))
              id);
  mret ((λ v, <["id" := VStr (toString (v_id v))]> (video_obj v)) <$> head rows).

Definition deleteVideo (id : string) : query bool :=
  let db := getPool in
  rowCount ← db_query db (delete_videos_where id);
  mret (bool_decide (0 < rowCount)%nat).

End module.
End Db.

(** ** The storage contract, as the route handlers call it *)

Inductive request :=
  | GetData
  | SaveData (data : body)
  | GetGroups
  | CreateGroup (group : obj)
  | UpdateGroup (id : string) (updates : obj)
  | DeleteGroup (id : string)
  | GetVideos
  | CreateVideo (video : obj)
  | UpdateVideo (id : string) (updates : obj)
  | DeleteVideo (id : string).

Inductive response :=
  | Snapshot (data : dataset)
  | Done
  | Records (rows : list obj)
  | Record_ (row : obj)
  | RecordOrNull (row : option obj)
  | Flag (b : bool).

(** The routes of the monolithic server on [storage = createPgStorage(pool)]. *)
Definition adapter_call `{Server} (r : request) : Postgres.query response :=
  match r with
  | GetData => Snapshot <$> PgStorage.getData
  | SaveData data => (λ _, Done) <$> PgStorage.saveData data
  | GetGroups => Records <$> PgStorage.getGroups
  | CreateGroup group => Record_ <$> PgStorage.createGroup group
  | UpdateGroup id updates => RecordOrNull <$> PgStorage.updateGroup id updates
  | DeleteGroup id => Flag <$> PgStorage.deleteGroup id
  | GetVideos => Records <$> PgStorage.getVideos
  | CreateVideo video => Record_ <$> PgStorage.createVideo video
  | UpdateVideo id updates => RecordOrNull <$> PgStorage.updateVideo id updates
  | DeleteVideo id => Flag <$> PgStorage.deleteVideo id
  end.

(** The handlers under [api/] on the functions [lib/db] exports. *)
Definition module_call `{Server} (DATABASE_URL : option string) (r : request)
  : Postgres.query response :=
  match r with
  | GetData => Snapshot <$> Db.getData DATABASE_URL
  | SaveData data => (λ _, Done) <$> Db.saveData DATABASE_URL data
  | GetGroups => Records <$> Db.getGroups DATABASE_URL
  | CreateGroup group => Record_ <$> Db.createGroup DATABASE_URL group
  | UpdateGroup id updates => RecordOrNull <$> Db.updateGroup DATABASE_URL id updates
  | DeleteGroup id => Flag <$> Db.deleteGroup DATABASE_URL id
  | GetVideos => Records <$> Db.getVideos DATABASE_URL
  | CreateVideo video => Record_ <$> Db.createVideo DATABASE_URL video
  | UpdateVideo id updates => RecordOrNull <$> Db.updateVideo DATABASE_URL id updates
  | DeleteVideo id => Flag <$> Db.deleteVideo DATABASE_URL id
  end.

(** ** A server to run the model on *)

Definition digit (c : Ascii.ascii) : option Z :=
  let n := Z.of_N (Ascii.N_of_ascii c) - 48 in
  if bool_decide (0 ≤ n ≤ 9) then Some n else None.

Definition is_space (c : Ascii.ascii) : bool :=
  let n := Z.of_N (Ascii.N_of_ascii c) in
  bool_decide (n = 32 ∨ 9 ≤ n ≤ 13).

Fixpoint skip_spaces (s : string) : string :=
  match s with
  | String c s' => if is_space c then skip_spaces s' else s
  | EmptyString => s
  end.

(** The digits at the head of [s]: their value, if there is one, and what
    follows them.  Reading stops with an error at a digit that would take
    the value beyond ten digits of an [int4]. *)
Fixpoint digits (acc : option Z) (s : string) : result (option Z * string) :=
  match s with
  | String c s' =>
      match digit c with
      | Some d =>
          if bool_decide (default 0 acc ≤ 214748364)
          then digits (Some (10 * default 0 acc + d)) s'
          else Throw (DatabaseError numeric_value_out_of_range)
      | None => Ok (acc, s)
      end
  | EmptyString => Ok (acc, s)
  end.

(** An integer input routine for decimal numerals: white space, an optional
    sign, digits, white space.  (The numerals of other bases that version 16
    of the server reads as well are left out.) *)
Definition decimal_int4in (s : string) : result Z :=
  let s := skip_spaces s in
  let signed :=
    match s with
    | String c s' =>
        if bool_decide (String c "" = "-") then (-1, s')
        else if bool_decide (String c "" = "+") then (1, s')
        else (1, s)
    | EmptyString => (1, s)
    end in
  read ← digits None signed.2;
  match read with
  | (Some n, rest) =>
      if bool_decide (skip_spaces rest = "")
      then if bool_decide (- Postgres.int4_max - 1 ≤ signed.1 * n ≤ Postgres.int4_max)
           then Ok (signed.1 * n)
           else Throw (DatabaseError numeric_value_out_of_range)
      else Throw (DatabaseError invalid_text_representation)
  | (None, _) => Throw (DatabaseError invalid_text_representation)
  end.

(** Decimal numerals and the byte order of the "C" collation. *)
Global Instance c_server : Server := {|
  int4in := decimal_int4in;
  collate_le := String.le;
|}.

(** ** Words of the specification *)

(** "ordered by [name] ascending": every record has a name that comes, in
    the collation, no later than that of every record after it. *)
Definition name_le `{Server} : relation obj := λ o1 o2,
  ∃ n1 n2, o1 !! "name" = Some (VStr n1) ∧ o2 !! "name" = Some (VStr n2)
           ∧ collate_le n1 n2.

Definition sorted_by_name `{Server} (rows : list obj) : Prop :=
  StronglySorted name_le rows.

(** An optional text field as the relational backend gives it back: the
    text itself, or [null] for a field that was absent, [null] or empty. *)
Definition falsy_as_null (field : option value) (stored : value) : Prop :=
  match field with
  | None | Some VNull => stored = VNull
  | Some (VStr s) => stored = if bool_decide (s = "") then VNull else VStr s
  | Some (VBool _) | Some (VNum _) => True
  end.

(** A value that goes into a [VARCHAR(255)] column as it is: nothing, or a
    text of at most 255 characters. *)
Definition fits (v : option value) : Prop :=
  ∀ s, Postgres.prepareValue v = Some s → (String.length s ≤ 255)%nat.

(** An error the database raised, as opposed to one of JavaScript. *)
Definition sql_error (e : error) : Prop := ∃ code, e = DatabaseError code.

(** ** Sample data: the scenario of one group with one video *)

Definition cats : obj := {[ "id" := VStr "g1"; "name" := VStr "Cats" ]}.

Definition clip : obj :=
  {[ "groupId" := VStr "g1"; "url" := VStr "http://x"; "username" := VStr "u" ]}.

Definition one_group_file : dataset :=
  Dataset [cats] [<["id" := VStr "1"]> clip].

Definition one_group_db : Postgres.database :=
  Postgres.Database
    [Postgres.GroupRow "g1" "Cats" None]
    [Postgres.VideoRow 1 (Some "g1") "http://x" "u" None None]
    2.

Definition described_db : Postgres.database :=
  Postgres.Database [Postgres.GroupRow "g1" "Cats" (Some "felines")] [] 1.

Definition dogs : obj := {[ "id" := VStr "g2"; "name" := VStr "Dogs" ]}.

Definition rename_patch : obj :=
  {[ "id" := VStr "g2"; "name" := VStr "Cats" ]}.

(** ** The constraints of the schema *)

(** What the two [CREATE TABLE] statements ask of a state, and what the use
    of the sequence adds: the primary keys, the foreign key, the widths of
    the [VARCHAR(255)] columns, and every video id below the next value of
    the sequence. *)
Definition db_ok (db : Postgres.database) : Prop :=
  NoDup (Postgres.g_id <$> Postgres.groups db) ∧
  NoDup (Postgres.v_id <$> Postgres.videos db) ∧
  (∀ v g, v ∈ Postgres.videos db → Postgres.v_group_id v = Some g →
          g ∈ Postgres.g_id <$> Postgres.groups db) ∧
  (∀ v, v ∈ Postgres.videos db →
        Postgres.v_id v < Postgres.videos_id_seq db) ∧
  (∀ g, g ∈ Postgres.groups db →
        (String.length (Postgres.g_id g) ≤ 255)%nat ∧
        (String.length (Postgres.g_name g) ≤ 255)%nat) ∧
  (∀ v, v ∈ Postgres.videos db →
        (String.length (Postgres.v_username v) ≤ 255)%nat).

(** A method respects a relation between the state it finds and the state
    it leaves when it does so whether it returns or throws. *)
Definition respects {A} (R : relation Postgres.database)
    (q : Postgres.query A) : Prop :=
  ∀ db, R db (q db).2.

(** "[q] keeps [P]": [respects (keeps P) q]. *)
Definition keeps (P : Postgres.database → Prop) : relation Postgres.database :=
  λ db db', P db → P db'.

(** The sequence does not go back. *)
Definition seq_le : relation Postgres.database :=
  λ db db', Postgres.videos_id_seq db ≤ Postgres.videos_id_seq db'.

(** ** What a handler answers *)

Inductive json :=
  | JSnapshot (data : dataset)
  | JRecords (rows : list obj)
  | JRecord (row : obj)
  | JSuccess                                  (* { success: true } *)
  | JError (message : string)                 (* { error: message } *)
  | JThrown (err : error) (stack : bool)      (* { error: err.message }, with
                                                 err.stack or without *)
  | JHealth (storage : string) (env_keys : option string).

(** [res.setHeader('Allow', ...)], [res.status(...)], [res.json(...)]. *)
Record reply := Reply {
  status : nat;
  allow : option (list string);
  payload : json;
}.

(** ** The monolithic server *)

Module App.

(** The storage adapter interface the routes call through [storage]; [S] is
    what the backend keeps, [B] the bulk-import bodies it can take. *)
Record storage (S B : Type) := Storage {
  getData : S → result dataset * S;
  saveData : B → S → result unit * S;
  getGroups : S → result (list obj) * S;
  createGroup : obj → S → result obj * S;
  updateGroup : string → obj → S → result (option obj) * S;
  deleteGroup : string → S → result bool * S;
  getVideos : S → result (list obj) * S;
  createVideo : obj → S → result obj * S;
  updateVideo : string → obj → S → result (option obj) * S;
  deleteVideo : string → S → result bool * S;
}.
Global Arguments getData {S B} _ _.
Global Arguments saveData {S B} _ _ _.
Global Arguments getGroups {S B} _ _.
Global Arguments createGroup {S B} _ _ _.
Global Arguments updateGroup {S B} _ _ _ _.
Global Arguments deleteGroup {S B} _ _ _.
Global Arguments getVideos {S B} _ _.
Global Arguments createVideo {S B} _ _ _.
Global Arguments updateVideo {S B} _ _ _ _.
Global Arguments deleteVideo {S B} _ _ _.

(** A method of [fileStorage] as a method of the interface: it returns. *)
Definition returns {A S} (f : S → A * S) : S → result A * S :=
  λ s, let (a, s') := f s in (Ok a, s').

(** [fileStorage], while [Date.now()] is [now]; the bodies are the
    documents with both arrays. *)
Definition fileStorage (now : Z) : storage dataset dataset := {|
  getData := returns (λ file, (FileStorage.getData file, file));
  saveData := λ data, returns (λ file, ((), FileStorage.saveData data file));
  getGroups := returns (λ file, (FileStorage.getGroups file, file));
  createGroup := λ group, returns (FileStorage.createGroup group);
  updateGroup := λ id updates, returns (FileStorage.updateGroup id updates);
  deleteGroup := λ id, returns (FileStorage.deleteGroup id);
  getVideos := returns (λ file, (FileStorage.getVideos file, file));
  createVideo := λ video, returns (FileStorage.createVideo now video);
  updateVideo := λ id updates, returns (FileStorage.updateVideo id updates);
  deleteVideo := λ id, returns (FileStorage.deleteVideo id);
|}.

(** [fileStorage.init()]: a missing file is created with the empty
    dataset, a present one is left alone. *)
Definition fileStorage_init (file : option dataset) : dataset :=
  match file with
  | Some data => data
  | None => Dataset [] []
  end.

(** [createPgStorage(pool)] *)
Definition createPgStorage `{Server} : storage Postgres.database body := {|
  getData := PgStorage.getData;
  saveData := PgStorage.saveData;
  getGroups := PgStorage.getGroups;
  createGroup := PgStorage.createGroup;
  updateGroup := PgStorage.updateGroup;
  deleteGroup := PgStorage.deleteGroup;
  getVideos := PgStorage.getVideos;
  createVideo := PgStorage.createVideo;
  updateVideo := PgStorage.updateVideo;
  deleteVideo := PgStorage.deleteVideo;
|}.

(** The routes [app.get], [app.put], [app.post], [app.delete] register. *)
Inductive route (B : Type) :=
  | GET_data
  | PUT_data (body : B)
  | GET_groups
  | POST_groups (body : obj)
  | PUT_groups_id (id : string) (body : obj)
  | DELETE_groups_id (id : string)
  | GET_videos
  | POST_videos (body : obj)
  | PUT_videos_id (id : string) (body : obj)
  | DELETE_videos_id (id : string)
  | GET_health.
Global Arguments GET_data {B}.
Global Arguments PUT_data {B} body.
Global Arguments GET_groups {B}.
Global Arguments POST_groups {B} body.
Global Arguments PUT_groups_id {B} id body.
Global Arguments DELETE_groups_id {B} id.
Global Arguments GET_videos {B}.
Global Arguments POST_videos {B} body.
Global Arguments PUT_videos_id {B} id body.
Global Arguments DELETE_videos_id {B} id.
Global Arguments GET_health {B}.

(** [try { const x = await call; answer(x) } catch (err) { 500 }] *)
Definition try_route {A S} (call : S → result A * S)
    (answer : A → reply) (failure : string) : S → reply * S :=
  λ s, match call s with
       | (Ok x, s') => (answer x, s')
       | (Throw _, s') => (Reply 500 None (JError failure), s')
       end.

Definition handle {S B} (storage : storage S B)
    (DATABASE_URL : option string) (r : route B) : S → reply * S :=
  match r with
  | GET_data =>
      try_route (getData storage)
        (λ data, Reply 200 None (JSnapshot data)) "Failed to get data"
  | PUT_data body =>
      try_route (saveData storage body)
        (λ _, Reply 200 None JSuccess) "Failed to save data"
  | GET_groups =>
      try_route (getGroups storage)
        (λ groups, Reply 200 None (JRecords groups)) "Failed to get groups"
  | POST_groups body =>
      try_route (createGroup storage body)
        (λ group, Reply 201 None (JRecord group)) "Failed to create group"
  | PUT_groups_id id body =>
      try_route (updateGroup storage id body)
        (λ group, match group with
                  | None => Reply 404 None (JError "Group not found")
                  | Some group => Reply 200 None (JRecord group)
                  end)
        "Failed to update group"
  | DELETE_groups_id id =>
      try_route (deleteGroup storage id)
        (λ deleted : bool,
           if deleted then Reply 200 None JSuccess
           else Reply 404 None (JError "Group not found"))
        "Failed to delete group"
  | GET_videos =>
      try_route (getVideos storage)
        (λ videos, Reply 200 None (JRecords videos)) "Failed to get videos"
  | POST_videos body =>
      try_route (createVideo storage body)
        (λ video, Reply 201 None (JRecord video)) "Failed to create video"
  | PUT_videos_id id body =>
      try_route (updateVideo storage id body)
        (λ video, match video with
                  | None => Reply 404 None (JError "Video not found")
                  | Some video => Reply 200 None (JRecord video)
                  end)
        "Failed to update video"
  | DELETE_videos_id id =>
      try_route (deleteVideo storage id)
        (λ deleted : bool,
           if deleted then Reply 200 None JSuccess
           else Reply 404 None (JError "Video not found"))
        "Failed to delete video"
  | GET_health =>
      λ s, (Reply 200 None
              (JHealth (if truthy (VStr <$> DATABASE_URL)
                        then "postgresql" else "file") None), s)
  end.

(** [start()] chooses the storage once. *)
Inductive backend := UseFile | UsePostgres.

Definition start (DATABASE_URL : option string) : backend :=
  if truthy (VStr <$> DATABASE_URL) then UsePostgres else UseFile.

End App.

(** ** The serverless handlers *)

Module Api.
Section handlers.
Context `{Server}.
Import Postgres.

(** [process.env]: the variables in the order [Object.keys] lists them. *)
Variable env : list (string * string).

Definition getenv (name : string) : option string :=
  (λ found, found.2.2) <$> list_find (λ kv, kv.1 = name) env.

Definition DATABASE_URL : option string := getenv "DATABASE_URL".

(** [CREATE TABLE IF NOT EXISTS ...]: the tables of a [database] exist, the
    statement leaves them as they are. *)
Definition create_table_if_not_exists : query unit := mret ().

(** [initDb()] *)
Definition initDb : query unit :=
  let db := Db.getPool DATABASE_URL in
  if negb db then mret () else
  _ ← Db.db_query db create_table_if_not_exists;
  _ ← Db.db_query db create_table_if_not_exists;
  mret ().

(** [try { ... } catch (err) { return handler(err) }] *)
Definition try_catch {A} (attempt : query A) (handler : error → A) : query A :=
  λ db, match attempt db with
        | (Ok a, db') => (Ok a, db')
        | (Throw err, db') => (Ok (handler err), db')
        end.

Definition not_allowed (methods : list string) (method : string) : reply :=
  Reply 405 (Some methods) (JError ("Method " +:+ method +:+ " not allowed")).

(** [api/groups/index.js] *)
Definition groups_index (method : string) (body : obj) : query reply :=
  _ ← initDb;
  try_catch
    (if bool_decide (method = "GET") then
       groups ← Db.getGroups DATABASE_URL;
       mret (Reply 200 None (JRecords groups))
     else if bool_decide (method = "POST") then
       group ← Db.createGroup DATABASE_URL body;
       mret (Reply 201 None (JRecord group))
     else mret (not_allowed ["GET"; "POST"] method))
    (λ err, Reply 500 None (JThrown err false)).

(** [api/groups/[id].js] *)
Definition groups_id (method id : string) (body : obj) : query reply :=
  _ ← initDb;
  try_catch
    (if bool_decide (method = "PUT") then
       group ← Db.updateGroup DATABASE_URL id body;
       mret (match group with
             | None => Reply 404 None (JError "Group not found")
             | Some group => Reply 200 None (JRecord group)
             end)
     else if bool_decide (method = "DELETE") then
       deleted ← Db.deleteGroup DATABASE_URL id;
       mret (if deleted : bool then Reply 200 None JSuccess
             else Reply 404 None (JError "Group not found"))
     else mret (not_allowed ["PUT"; "DELETE"] method))
    (λ err, Reply 500 None (JThrown err false)).

(** [api/videos/[id].js] *)
Definition videos_id (method id : string) (body : obj) : query reply :=
  _ ← initDb;
  try_catch
    (if bool_decide (method = "PUT") then
       video ← Db.updateVideo DATABASE_URL id body;
       mret (match video with
             | None => Reply 404 None (JError "Video not found")
             | Some video => Reply 200 None (JRecord video)
             end)
     else if bool_decide (method = "DELETE") then
       deleted ← Db.deleteVideo DATABASE_URL id;
       mret (if deleted : bool then Reply 200 None JSuccess
             else Reply 404 None (JError "Video not found"))
     else mret (not_allowed ["PUT"; "DELETE"] method))
    (λ err, Reply 500 None (JThrown err false)).

(** The handler of the bulk endpoint on [getData] and [saveData]; its
    [initDb] sits inside the [try]. *)
Definition data (method : string) (payload : body) : query reply :=
  try_catch
    (_ ← initDb;
     if bool_decide (method = "GET") then
       snapshot ← Db.getData DATABASE_URL;
       mret (Reply 200 None (JSnapshot snapshot))
     else if bool_decide (method = "PUT") then
       _ ← Db.saveData DATABASE_URL payload;
       mret (Reply 200 None JSuccess)
     else mret (not_allowed ["GET"; "PUT"] method))
    (λ err, Reply 500 None (JThrown err true)).

(** [k.includes(word)] *)
Fixpoint includes (word k : string) : bool :=
  String.prefix word k ||
  match k with
  | EmptyString => false
  | String _ rest => includes word rest
  end.

(** The health handler. *)
Definition health : reply :=
  let hasDb :=
    truthy (VStr <$> getenv "DATABASE_URL")
    || truthy (VStr <$> getenv "POSTGRES_URL_NON_POOLING")
    || truthy (VStr <$> getenv "POSTGRES_URL") in
  Reply 200 None
    (JHealth (if hasDb then "postgresql" else "none")
       (Some (String.concat ", "
                (filter (λ k, includes "POSTGRES" k || includes "DATABASE" k
                              || includes "SUPABASE" k = true)
                        (fst <$> env))))).

End handlers.
End Api.

(** A handler and a route give the same answer: the same state, the same
    status and, unless that is 500 (where one sends the message of the
    error and the other a fixed text), the same reply. *)
Definition same_answer
    (handler : result reply * Postgres.database)
    (route : reply * Postgres.database) : Prop :=
  ∃ r, handler = (Ok r, route.2) ∧
       status r = status route.1 ∧
       (status r ≠ 500%nat → r = route.1).

(** * Properties *)

(** Closed decidable goals, and the unfolding of a storage method. *)
Ltac decide_closed := apply (bool_decide_unpack _); vm_compute; exact I.

Ltac run_query :=
  unfold mbind, mret, fmap, Postgres.query_fmap, Postgres.query_bind,
    Postgres.query_ret, Postgres.statement, Postgres.throw; simpl.

(** ** The sample server *)

(** What the sample input routine reads, and the errors it gives. *)
Example int4in_samples :
  decimal_int4in " +7 " = Ok 7 ∧ decimal_int4in "-12" = Ok (-12) ∧
  decimal_int4in "2147483647" = Ok 2147483647 ∧
  decimal_int4in "-2147483648" = Ok (-2147483648) ∧
  decimal_int4in "2147483648" = Throw (DatabaseError numeric_value_out_of_range) ∧
  decimal_int4in "2147483648x" = Throw (DatabaseError invalid_text_representation) ∧
  decimal_int4in "21474836490x" = Throw (DatabaseError numeric_value_out_of_range) ∧
  decimal_int4in "" = Throw (DatabaseError invalid_text_representation) ∧
  decimal_int4in "-" = Throw (DatabaseError invalid_text_representation) ∧
  decimal_int4in "1 2" = Throw (DatabaseError invalid_text_representation) ∧
  decimal_int4in "nonexistent" = Throw (DatabaseError invalid_text_representation) ∧
  decimal_int4in "007" = Ok 7.
Proof. vm_compute. repeat split. Qed.

(** ** The scenario of the specification *)

Example file_scenario :
  let (_, file1) := FileStorage.createGroup cats (Dataset [] []) in
  let (video, file2) := FileStorage.createVideo 1700000000000 clip file1 in
  let (deleted, file3) := FileStorage.deleteGroup "g1" file2 in
  video = <["id" := VStr "1700000000000"]> clip ∧
  file2 = Dataset [cats] [video] ∧
  deleted = true ∧
  FileStorage.getVideos file3 = [].
Proof. vm_compute. done. Qed.

Example pg_scenario :
  let db0 := Postgres.Database [] [] 1 in
  let (_, db1) := PgStorage.createGroup cats db0 in
  let (video, db2) := PgStorage.createVideo clip db1 in
  let (deleted, db3) := PgStorage.deleteGroup "g1" db2 in
  video = Ok (<["id" := VStr "1"]> clip) ∧
  db2 = one_group_db ∧
  deleted = Ok true ∧
  PgStorage.getVideos db3 = (Ok [], db3).
Proof. vm_compute. done. Qed.

(** ** Arrays and predicates *)

Lemma strict_eq_true a b : strict_eq a b = true ↔ a = b.
Proof. unfold strict_eq. by rewrite bool_decide_eq_true. Qed.

Lemma strict_eq_false a b : strict_eq a b = false ↔ a ≠ b.
Proof. unfold strict_eq. by rewrite bool_decide_eq_false. Qed.

Lemma findIndex_None {A} (p : A → bool) (arr : list A) :
  findIndex p arr = None ↔ ∀ x, x ∈ arr → p x ≠ true.
Proof.
  unfold findIndex. rewrite fmap_None, list_find_None, Forall_forall. done.
Qed.

Lemma findIndex_Some {A} (p : A → bool) (arr : list A) (i : nat) :
  findIndex p arr = Some i ↔
  ∃ x, arr !! i = Some x ∧ p x = true ∧
       ∀ y, y ∈ take i arr → p y ≠ true.
Proof.
  unfold findIndex. rewrite fmap_Some. split.
  - intros [[j x] [Hf ->]]. apply list_find_Some in Hf as (Hl & Hp & Hbefore).
    exists x. split_and!; [done..|]. simpl.
    intros y [k Hk]%list_elem_of_lookup.
    apply lookup_take_Some in Hk as [Hk Hlt]. eauto.
  - intros (x & Hl & Hp & Hbefore). exists (i, x). split; [|done].
    apply list_find_Some. split_and!; [done..|].
    intros j y Hj Hlt. apply Hbefore, list_elem_of_lookup. exists j.
    by rewrite lookup_take_lt.
Qed.

Lemma findIndex_is_Some {A} (p : A → bool) (arr : list A) :
  (∃ x, x ∈ arr ∧ p x = true) → is_Some (findIndex p arr).
Proof.
  intros (x & Hin & Hp). destruct (findIndex p arr) eqn:E; [eauto|].
  rewrite findIndex_None in E. by destruct (E x Hin).
Qed.

Lemma filter_ext_in {A} (P Q : A → Prop) `{!∀ x, Decision (P x), !∀ x, Decision (Q x)}
    (l : list A) :
  (∀ x, x ∈ l → P x ↔ Q x) → filter P l = filter Q l.
Proof.
  induction l as [|a l IH]; intros Hl; [done|].
  rewrite !filter_cons.
  rewrite IH by (intros; apply Hl; by right).
  apply decide_ext, Hl. by left.
Qed.

Lemma filter_all {A} (P : A → Prop) `{!∀ x, Decision (P x)} (l : list A) :
  (∀ x, x ∈ l → P x) → filter P l = l.
Proof.
  induction l as [|a l IH]; intros Hl; [done|].
  rewrite filter_cons_True by (apply Hl; by left).
  f_equal. apply IH. intros; apply Hl; by right.
Qed.

Lemma filter_none {A} (P : A → Prop) `{!∀ x, Decision (P x)} (l : list A) :
  (∀ x, x ∈ l → ¬ P x) → filter P l = [].
Proof.
  induction l as [|a l IH]; intros Hl; [done|].
  rewrite filter_cons_False by (apply Hl; by left).
  apply IH. intros; apply Hl; by right.
Qed.


(** ** Deleting a group *)

Lemma file_deleteGroup_absent id file :
  (∀ g, g ∈ groups file → g !! "id" ≠ Some (VStr id)) →
  FileStorage.deleteGroup id file = (false, file).
Proof.
  intros Hno. unfold FileStorage.deleteGroup, FileStorage.getData.
  assert (findIndex (λ g : obj, strict_eq (g !! "id") (Some (VStr id)))
            (groups file) = None) as ->; [|done].
  apply findIndex_None. intros g Hg. rewrite strict_eq_true. auto.
Qed.

Lemma file_deleteGroup_present id file :
  (∃ g, g ∈ groups file ∧ g !! "id" = Some (VStr id)) →
  ∃ before g after,
    groups file = before ++ g :: after ∧
    g !! "id" = Some (VStr id) ∧
    (∀ g', g' ∈ before → g' !! "id" ≠ Some (VStr id)) ∧
    FileStorage.deleteGroup id file =
      (true, Dataset (before ++ after)
               (filter (λ v, v !! "groupId" ≠ Some (VStr id)) (videos file))).
Proof.
  intros (g0 & Hin & Hid).
  destruct (findIndex_is_Some (λ g : obj, strict_eq (g !! "id") (Some (VStr id)))
              (groups file)) as [i Hi].
  { exists g0. by rewrite strict_eq_true. }
  pose proof Hi as (g & Hl & Hp & Hbefore)%findIndex_Some.
  exists (take i (groups file)), g, (drop (S i) (groups file)).
  split_and!.
  - by rewrite take_drop_middle.
  - by apply strict_eq_true.
  - intros g' Hg'. rewrite <-strict_eq_true. auto.
  - unfold FileStorage.deleteGroup, FileStorage.getData, FileStorage.saveData.
    rewrite Hi. do 2 f_equal.
    + apply delete_take_drop.
    + apply list_filter_iff. intros v. apply strict_eq_false.
Qed.


Lemma pg_deleteGroup_absent id db :
  id ∉ Postgres.g_id <$> Postgres.groups db →
  PgStorage.deleteGroup id db = (Ok false, db).
Proof.
  intros Hno. unfold PgStorage.deleteGroup, Postgres.delete_groups_where.
  run_query.
  assert (∀ g, g ∈ Postgres.groups db → Postgres.g_id g ≠ id) as Hne.
  { intros g Hg <-. apply Hno, list_elem_of_fmap. eauto. }
  rewrite (filter_none (λ g, Postgres.g_id g = id)) by done.
  rewrite (filter_all (λ g, ¬ Postgres.g_id g = id)) by done.
  rewrite filter_all by (intros; apply not_elem_of_nil).
  by destruct db.
Qed.

Lemma pg_deleteGroup_present id db :
  id ∈ Postgres.g_id <$> Postgres.groups db →
  PgStorage.deleteGroup id db =
    (Ok true,
     Postgres.Database
       (filter (λ g, Postgres.g_id g ≠ id) (Postgres.groups db))
       (filter (λ v, Postgres.v_group_id v ≠ Some id) (Postgres.videos db))
       (Postgres.videos_id_seq db)).
Proof.
  intros (g & -> & Hg)%list_elem_of_fmap.
  unfold PgStorage.deleteGroup, Postgres.delete_groups_where.
  run_query.
  set (gone := filter (λ g0, Postgres.g_id g0 = Postgres.g_id g) (Postgres.groups db)).
  assert (g ∈ gone) as Hgone by (by apply list_elem_of_filter).
  f_equal.
  - f_equal. apply bool_decide_eq_true.
    destruct gone; [by apply elem_of_nil in Hgone|simpl; lia].
  - f_equal. apply list_filter_iff. intros v. split.
    + intros Hv Heq. apply Hv, list_elem_of_fmap. exists g. by rewrite Heq.
    + intros Hv (g' & Heq & [Hg' _]%list_elem_of_filter)%list_elem_of_fmap.
      apply Hv. rewrite Heq. simpl. by rewrite Hg'.
Qed.

(** C2: [deleteGroup(id)] returns [false] and leaves the dataset as it was
    when no group has [id]; otherwise it removes the group (the first of that
    id in the document, the row of that key in the table), removes every
    video whose [groupId] is [id] and no other, and returns [true]; in the
    flat-file and in the relational backend. *)
Theorem deleteGroup_cascades (id : string) :
  (∀ file,
     ((∀ g, g ∈ groups file → g !! "id" ≠ Some (VStr id)) →
      FileStorage.deleteGroup id file = (false, file)) ∧
     ((∃ g, g ∈ groups file ∧ g !! "id" = Some (VStr id)) →
      ∃ before g after,
        groups file = before ++ g :: after ∧
        g !! "id" = Some (VStr id) ∧
        (∀ g', g' ∈ before → g' !! "id" ≠ Some (VStr id)) ∧
        FileStorage.deleteGroup id file =
          (true, Dataset (before ++ after)
                   (filter (λ v, v !! "groupId" ≠ Some (VStr id)) (videos file))))) ∧
  (∀ db,
     (id ∉ Postgres.g_id <$> Postgres.groups db →
      PgStorage.deleteGroup id db = (Ok false, db)) ∧
     (id ∈ Postgres.g_id <$> Postgres.groups db →
      PgStorage.deleteGroup id db =
        (Ok true,
         Postgres.Database
           (filter (λ g, Postgres.g_id g ≠ id) (Postgres.groups db))
           (filter (λ v, Postgres.v_group_id v ≠ Some id) (Postgres.videos db))
           (Postgres.videos_id_seq db)))).
Proof.
  split.
  - intros file. split.
    + apply file_deleteGroup_absent.
    + apply file_deleteGroup_present.
  - intros db. split.
    + apply pg_deleteGroup_absent.
    + apply pg_deleteGroup_present.
Qed.

Lemma deleteGroup_cascades_witness :
  (∃ before g after,
     groups one_group_file = before ++ g :: after ∧
     g !! "id" = Some (VStr "g1") ∧
     (∀ g', g' ∈ before → g' !! "id" ≠ Some (VStr "g1")) ∧
     FileStorage.deleteGroup "g1" one_group_file =
       (true, Dataset (before ++ after)
                (filter (λ v, v !! "groupId" ≠ Some (VStr "g1"))
                        (videos one_group_file)))) ∧
  PgStorage.deleteGroup "g1" one_group_db =
    (Ok true,
     Postgres.Database
       (filter (λ g, Postgres.g_id g ≠ "g1") (Postgres.groups one_group_db))
       (filter (λ v, Postgres.v_group_id v ≠ Some "g1")
               (Postgres.videos one_group_db))
       (Postgres.videos_id_seq one_group_db)).
Proof.
  split.
  - apply (deleteGroup_cascades "g1"). exists cats. split; decide_closed.
  - apply (deleteGroup_cascades "g1"). decide_closed.
Defined.

(** ** Renaming a group *)

(** The flat-file backend re-points the videos in the same write. *)
Lemma file_updateGroup_found id updates file :
  (∃ g, g ∈ groups file ∧ g !! "id" = Some (VStr id)) →
  ∃ index g,
    groups file !! index = Some g ∧
    g !! "id" = Some (VStr id) ∧
    (∀ g', g' ∈ take index (groups file) → g' !! "id" ≠ Some (VStr id)) ∧
    FileStorage.updateGroup id updates file =
      (Some (spread g updates),
       Dataset (<[index := spread g updates]> (groups file))
         (if truthy (updates !! "id")
             && negb (strict_eq (updates !! "id") (Some (VStr id)))
          then (λ v, if strict_eq (v !! "groupId") (Some (VStr id))
                     then assign "groupId" (updates !! "id") v else v)
                 <$> videos file
          else videos file)).
Proof.
  intros (g0 & Hin & Hid).
  destruct (findIndex_is_Some (λ g : obj, strict_eq (g !! "id") (Some (VStr id)))
              (groups file)) as [i Hi].
  { exists g0. by rewrite strict_eq_true. }
  pose proof Hi as (g & Hl & Hp & Hbefore)%findIndex_Some.
  exists i, g. split_and!; [done|by apply strict_eq_true| |].
  - intros g' Hg'. rewrite <-strict_eq_true. auto.
  - unfold FileStorage.updateGroup, FileStorage.getData, FileStorage.saveData.
    rewrite Hi, Hl. simpl. f_equal.
    apply list_lookup_insert_eq. by eapply lookup_lt_Some.
Qed.

Lemma file_updateGroup_repoints id updates new file :
  (∃ g, g ∈ groups file ∧ g !! "id" = Some (VStr id)) →
  updates !! "id" = Some new → truthy (Some new) = true → new ≠ VStr id →
  videos (FileStorage.updateGroup id updates file).2 =
    (λ v, if decide (v !! "groupId" = Some (VStr id))
          then <["groupId" := new]> v else v) <$> videos file.
Proof.
  intros Hex Hnew Htruthy Hdiff.
  destruct (file_updateGroup_found id updates file Hex) as (i & g & _ & _ & _ & ->).
  simpl. rewrite Hnew, Htruthy.
  unfold strict_eq at 1. rewrite bool_decide_eq_false_2 by congruence. simpl.
  apply list_fmap_ext. intros _ v _. unfold strict_eq.
  by destruct (decide _); [rewrite bool_decide_eq_true_2|rewrite bool_decide_eq_false_2].
Qed.

Lemma file_updateGroup_renames id updates new file :
  NoDup ((λ g : obj, g !! "id") <$> groups file) →
  (∃ g, g ∈ groups file ∧ g !! "id" = Some (VStr id)) →
  updates !! "id" = Some new → new ≠ VStr id →
  ∀ g, g ∈ groups (FileStorage.updateGroup id updates file).2 →
       g !! "id" ≠ Some (VStr id).
Proof.
  intros Hnodup Hex Hnew Hdiff g'.
  destruct (file_updateGroup_found id updates file Hex)
    as (i & g & Hi & Hid & _ & ->). simpl.
  intros [j Hj]%list_elem_of_lookup.
  destruct (decide (i = j)) as [->|Hij].
  - rewrite list_lookup_insert_eq in Hj by (by eapply lookup_lt_Some).
    injection Hj as <-. unfold spread.
    rewrite (lookup_union_Some_l _ _ _ _ Hnew). congruence.
  - rewrite list_lookup_insert_ne in Hj by done.
    intros Hid'. apply Hij.
    eapply NoDup_lookup; [exact Hnodup|..].
    + by rewrite list_lookup_fmap, Hi.
    + rewrite list_lookup_fmap, Hj. simpl. congruence.
Qed.

Lemma varchar255_short s :
  (String.length s ≤ 255)%nat → Postgres.varchar255 (Some s) = Ok (Some s).
Proof. intros Hs. unfold Postgres.varchar255. by rewrite bool_decide_eq_true_2. Qed.

Lemma filter_hit_cons (id : string) (l : list Postgres.group_row) :
  id ∈ Postgres.g_id <$> l →
  ∃ g hit, filter (λ g, Postgres.g_id g = id) l = g :: hit ∧ Postgres.g_id g = id.
Proof.
  intros (g & -> & Hg)%list_elem_of_fmap.
  destruct (filter (λ g0, Postgres.g_id g0 = Postgres.g_id g) l) as [|g' hit] eqn:E.
  - exfalso. eapply (filter_nil_not_elem_of _ _ g); [exact E|done|done].
  - exists g', hit. split; [done|].
    assert (g' ∈ filter (λ g0, Postgres.g_id g0 = Postgres.g_id g) l) as Hin
      by (rewrite E; left).
    by apply list_elem_of_filter in Hin as [? _].
Qed.

(** C1, relational backend: a rename of a group that videos reference is
    refused.  The foreign key of [videos] has no [ON UPDATE] action, so
    [updateGroup(id, patch)] with a new [patch.id] on a referenced group
    throws a foreign-key violation and changes nothing: the videos keep the
    old [groupId] and the group keeps the old id. *)
Theorem pg_updateGroup_rename_refused
    (db : Postgres.database) (id new name : string) (updates : obj) :
  id ∈ Postgres.g_id <$> Postgres.groups db →
  Some id ∈ Postgres.v_group_id <$> Postgres.videos db →
  updates !! "id" = Some (VStr new) →
  new ≠ "" → new ≠ id → (String.length new ≤ 255)%nat →
  new ∉ Postgres.g_id <$> Postgres.groups db →
  updates !! "name" = Some (VStr name) → (String.length name ≤ 255)%nat →
  PgStorage.updateGroup id updates db
  = (Throw (DatabaseError foreign_key_violation), db).
Proof.
  intros Hid Href Hnew Hne Hdiff Hlen Hfresh Hname Hlen'.
  destruct (filter_hit_cons id _ Hid) as (g & hit & Hhit & _).
  unfold PgStorage.updateGroup, Postgres.update_groups. run_query.
  rewrite Hhit, Hnew, Hname. unfold js_or. simpl.
  rewrite (bool_decide_eq_false_2 (new = "")) by done. simpl.
  rewrite !varchar255_short by done. simpl.
  assert (new ∉ Postgres.g_id <$>
            filter (λ g0, Postgres.g_id g0 ≠ id) (Postgres.groups db)) as Hothers.
  { intros (g' & Heq & [_ Hg']%list_elem_of_filter)%list_elem_of_fmap.
    apply Hfresh, list_elem_of_fmap. eauto. }
  rewrite (bool_decide_eq_true_2 _ Hothers). simpl.
  rewrite (bool_decide_eq_false_2 (new = id)) by done.
  rewrite bool_decide_eq_false_2 by (intros Hn; by apply Hn).
  done.
Qed.

Lemma pg_updateGroup_rename_refused_witness :
  PgStorage.updateGroup "g1" rename_patch one_group_db
  = (Throw (DatabaseError foreign_key_violation), one_group_db).
Proof.
  apply (pg_updateGroup_rename_refused one_group_db "g1" "g2" "Cats");
    solve [decide_closed | reflexivity].
Defined.

(** ** Creating a group *)

(** C3, flat-file backend: [createGroup] makes no check.  On a document
    that already holds a group of the same id it does not fail: it returns
    the group, appends it, and leaves two groups with one id. *)
Theorem file_createGroup_duplicates (group : obj) (file : dataset) :
  (∃ g, g ∈ groups file ∧ g !! "id" = group !! "id") →
  ∃ file',
    FileStorage.createGroup group file = (group, file') ∧
    groups file' = groups file ++ [group] ∧
    videos file' = videos file ∧
    ¬ NoDup ((λ g : obj, g !! "id") <$> groups file').
Proof.
  intros (g & Hin & Hid). eexists. split_and!; [reflexivity..|]. simpl.
  rewrite fmap_app. simpl. intros [_ [Hdisj _]]%NoDup_app.
  apply (Hdisj (group !! "id")); [|left].
  apply list_elem_of_fmap. eauto.
Qed.

Lemma file_createGroup_duplicates_witness :
  ∃ file',
    FileStorage.createGroup rename_patch (Dataset [rename_patch] []) =
      (rename_patch, file') ∧
    groups file' = [rename_patch] ++ [rename_patch] ∧
    videos file' = [] ∧
    ¬ NoDup ((λ g : obj, g !! "id") <$> groups file').
Proof.
  apply (file_createGroup_duplicates rename_patch (Dataset [rename_patch] [])).
  exists rename_patch. split; [decide_closed|reflexivity].
Defined.

(** The relational backend refuses the same call: the primary key raises a
    unique violation and the table stays as it was. *)
Lemma pg_createGroup_duplicate (group : obj) (db : Postgres.database)
    (id name : string) :
  group !! "id" = Some (VStr id) → (String.length id ≤ 255)%nat →
  group !! "name" = Some (VStr name) → (String.length name ≤ 255)%nat →
  id ∈ Postgres.g_id <$> Postgres.groups db →
  PgStorage.createGroup group db = (Throw (DatabaseError unique_violation), db).
Proof.
  intros Hid Hlen Hname Hlen' Hdup.
  unfold PgStorage.createGroup, Postgres.insert_group. run_query.
  rewrite Hid, Hname. simpl. rewrite !varchar255_short by done. simpl.
  by rewrite bool_decide_eq_false_2 by (intros Hn; by apply Hn).
Qed.

(** ** Creating a video *)

(** C5, flat-file backend: the id of a created video is the text of the
    clock, whatever id the caller sent; two calls, one after the other, get
    the same id exactly when the clock shows the same millisecond for
    both. *)
Theorem file_createVideo_same_clock
    (now1 now2 : Z) (video1 video2 : obj) (file : dataset) :
  ∃ r1 file1 r2 file2,
    FileStorage.createVideo now1 video1 file = (r1, file1) ∧
    FileStorage.createVideo now2 video2 file1 = (r2, file2) ∧
    r1 !! "id" = Some (VStr (toString now1)) ∧
    r2 !! "id" = Some (VStr (toString now2)) ∧
    videos file2 = videos file ++ [r1; r2] ∧
    (r1 !! "id" = r2 !! "id" ↔ now1 = now2).
Proof.
  do 4 eexists. split_and!; try reflexivity.
  - apply lookup_insert_eq.
  - apply lookup_insert_eq.
  - simpl. by rewrite <-app_assoc.
  - rewrite !lookup_insert_eq. split; [|by intros ->].
    intros [= Heq]. by apply (inj pretty) in Heq.
Qed.

(** Two creations within one millisecond. *)
Example file_createVideo_collision :
  let (first, file1) :=
    FileStorage.createVideo 1700000000000 clip (Dataset [cats] []) in
  let (second, file2) :=
    FileStorage.createVideo 1700000000000 (<["url" := VStr "http://y"]> clip) file1 in
  first !! "id" = Some (VStr "1700000000000") ∧
  second !! "id" = Some (VStr "1700000000000") ∧
  first ≠ second ∧
  videos file2 = [first; second].
Proof. vm_compute. split_and!; try done. Qed.

(** The relational backend takes the id from the sequence, which moves on
    with every call. *)
Lemma pg_createVideo_id (video r : obj) (db db' : Postgres.database) :
  PgStorage.createVideo video db = (Ok r, db') →
  r = <["id" := VStr (toString (Postgres.videos_id_seq db))]> video ∧
  Postgres.videos_id_seq db' = Postgres.videos_id_seq db + 1.
Proof.
  unfold PgStorage.createVideo, Postgres.insert_video, Postgres.nextval,
    Postgres.planned.
  run_query.
  destruct (Postgres.varchar255 (Postgres.prepareValue (video !! "groupId")));
    [simpl|by intros [=]].
  destruct (Postgres.varchar255 (Postgres.prepareValue (video !! "username")));
    [simpl|by intros [=]].
  case_bool_decide; [simpl|by intros [=]].
  match goal with |- context [result_bind _ _ ?f ?m] =>
    destruct (result_bind _ _ f m) as [[??]|] eqn:E end; [|by intros [=]].
  intros [= <- <-].
  revert E. unfold mbind.
  repeat (match goal with |- context [result_bind _ _ _ ?m] => destruct m; simpl end;
          try by intros [=]).
  intros [= <- <-]. done.
Qed.

Lemma pg_createVideo_distinct (video1 video2 r1 r2 : obj)
    (db db1 db2 : Postgres.database) :
  PgStorage.createVideo video1 db = (Ok r1, db1) →
  PgStorage.createVideo video2 db1 = (Ok r2, db2) →
  r1 !! "id" ≠ r2 !! "id".
Proof.
  intros [-> Hseq]%pg_createVideo_id [-> _]%pg_createVideo_id.
  rewrite !lookup_insert_eq, Hseq. intros [= Heq].
  apply (inj pretty) in Heq. lia.
Qed.

(** ** Updating a video *)

(** C9, flat-file backend: [updateVideo] spreads the whole patch over the
    stored record, so a patch with an [id] field replaces the id of the
    video, in the record returned and in the document. *)
Theorem file_updateVideo_overwrites_id
    (id : string) (updates : obj) (newid : value) (file : dataset) :
  (∃ v, v ∈ videos file ∧ v !! "id" = Some (VStr id)) →
  updates !! "id" = Some newid →
  ∃ index v r file',
    videos file !! index = Some v ∧
    v !! "id" = Some (VStr id) ∧
    FileStorage.updateVideo id updates file = (Some r, file') ∧
    r = spread v updates ∧
    r !! "id" = Some newid ∧
    videos file' = <[index := r]> (videos file) ∧
    videos file' !! index = Some r.
Proof.
  intros (v0 & Hin & Hid) Hnew.
  destruct (findIndex_is_Some (λ v : obj, strict_eq (v !! "id") (Some (VStr id)))
              (videos file)) as [i Hi].
  { exists v0. by rewrite strict_eq_true. }
  pose proof Hi as (v & Hl & Hp%strict_eq_true & _)%findIndex_Some.
  assert (<[i := spread v updates]> (videos file) !! i = Some (spread v updates))
    as Hstored by (apply list_lookup_insert_eq; by eapply lookup_lt_Some).
  exists i, v, (spread v updates). eexists. split_and!; [done|done| |done| |..].
  - unfold FileStorage.updateVideo, FileStorage.getData, FileStorage.saveData.
    rewrite Hi, Hl. simpl. by rewrite Hstored.
  - unfold spread. by apply lookup_union_Some_l.
  - done.
  - done.
Qed.

(** The relational backend writes the five editable columns only: the id
    column is the same before and after, for every patch. *)
Lemma pg_updateVideo_keeps_ids `{Server}
    (id : string) (updates : obj) (db : Postgres.database) :
  Postgres.v_id <$> Postgres.videos (PgStorage.updateVideo id updates db).2
  = Postgres.v_id <$> Postgres.videos db.
Proof.
  unfold PgStorage.updateVideo, Postgres.update_videos. run_query.
  match goal with |- context [result_bind _ _ ?f ?m] =>
    destruct (result_bind _ _ f m) as [[??]|] eqn:E end; [|done].
  simpl. revert E. unfold mbind.
  destruct (int4in id) as [n|]; simpl; [|by intros [=]].
  destruct (Postgres.varchar255 (Postgres.prepareValue (updates !! "groupId")));
    simpl; [|by intros [=]].
  destruct (Postgres.varchar255 (Postgres.prepareValue (updates !! "username")));
    simpl; [|by intros [=]].
  destruct (filter _ _); [by intros [= <- <-]|].
  repeat (match goal with |- context [result_bind _ _ _ ?m] => destruct m; simpl end;
          try by intros [=]).
  intros [= <- <-]. simpl. rewrite <-list_fmap_compose.
  apply list_fmap_ext. intros _ x _. simpl. by case_bool_decide.
Qed.

Lemma file_updateVideo_overwrites_id_witness :
  ∃ index v r file',
    videos one_group_file !! index = Some v ∧
    v !! "id" = Some (VStr "1") ∧
    FileStorage.updateVideo "1" {[ "id" := VStr "2" ]} one_group_file
      = (Some r, file') ∧
    r = spread v {[ "id" := VStr "2" ]} ∧
    r !! "id" = Some (VStr "2") ∧
    videos file' = <[index := r]> (videos one_group_file) ∧
    videos file' !! index = Some r.
Proof.
  apply (file_updateVideo_overwrites_id "1" {[ "id" := VStr "2" ]} (VStr "2")
           one_group_file).
  - exists (<["id" := VStr "1"]> clip). split; decide_closed.
  - reflexivity.
Defined.

(** ** Listing the groups *)

Global Instance by_name_total `{Server} : Total Postgres.by_name.
Proof. intros g1 g2. unfold Postgres.by_name. apply (total collate_le). Qed.

Global Instance by_name_trans `{Server} : Transitive Postgres.by_name.
Proof. intros g1 g2 g3. unfold Postgres.by_name. apply (transitivity (R:=collate_le)). Qed.

Lemma group_obj_name_le `{Server} (g1 g2 : Postgres.group_row) :
  Postgres.by_name g1 g2 → name_le (Postgres.group_obj g1) (Postgres.group_obj g2).
Proof. intros Hle. exists (Postgres.g_name g1), (Postgres.g_name g2). done. Qed.

(** The relational backend lists the groups sorted by [name]. *)
Lemma pg_getGroups_sorted `{Server} (db : Postgres.database) :
  ∃ rows,
    PgStorage.getGroups db = (Ok rows, db) ∧
    sorted_by_name rows ∧
    rows ≡ₚ Postgres.group_obj <$> Postgres.groups db.
Proof.
  eexists. split_and!; [reflexivity|..].
  - apply (StronglySorted_fmap _ Postgres.by_name); [apply group_obj_name_le|].
    apply StronglySorted_merge_sort; apply _.
  - apply fmap_Permutation, merge_sort_Permutation.
Qed.

Example file_getGroups_unsorted :
  ¬ sorted_by_name (FileStorage.getGroups (Dataset [dogs; cats] [])).
Proof.
  intros Hsorted. apply StronglySorted_cons in Hsorted as [Hhd _].
  apply Forall_cons in Hhd as [(n1 & n2 & Hn1 & Hn2 & Hle) _].
  vm_compute in Hn1, Hn2. injection Hn1 as <-. injection Hn2 as <-.
  by vm_compute in Hle.
Qed.

(** C7, flat-file backend: [listGroups()] gives the groups in the order they
    were created, not in the order of their names.  Two groups created one
    after the other on an empty document, the first with the later name,
    are listed first-created first, and that list is not sorted by name. *)
Theorem file_getGroups_insertion_order `{Server}
    (g1 g2 : obj) (n1 n2 : string) (vs : list obj) :
  g1 !! "name" = Some (VStr n1) →
  g2 !! "name" = Some (VStr n2) →
  ¬ collate_le n1 n2 →
  ∃ file1 file2,
    FileStorage.createGroup g1 (Dataset [] vs) = (g1, file1) ∧
    FileStorage.createGroup g2 file1 = (g2, file2) ∧
    FileStorage.getGroups file2 = [g1; g2] ∧
    ¬ sorted_by_name (FileStorage.getGroups file2).
Proof.
  intros Hn1 Hn2 Hlater. do 2 eexists. split_and!; [reflexivity..|].
  unfold FileStorage.getGroups, FileStorage.getData. simpl.
  intros Hsorted. apply StronglySorted_cons in Hsorted as [Hhd _].
  apply Forall_cons in Hhd as [(m1 & m2 & Hm1 & Hm2 & Hle) _].
  rewrite Hn1 in Hm1. rewrite Hn2 in Hm2.
  injection Hm1 as <-. injection Hm2 as <-. done.
Qed.

Lemma file_getGroups_insertion_order_witness :
  ∃ file1 file2,
    FileStorage.createGroup dogs (Dataset [] []) = (dogs, file1) ∧
    FileStorage.createGroup cats file1 = (cats, file2) ∧
    FileStorage.getGroups file2 = [dogs; cats] ∧
    ¬ sorted_by_name (FileStorage.getGroups file2).
Proof.
  apply (file_getGroups_insertion_order dogs cats "Dogs" "Cats" []);
    solve [decide_closed | reflexivity].
Defined.

(** ** Creating a group and listing it *)

Lemma filter_fmap {A B} (f : A → B) (P : B → Prop) `{!∀ y, Decision (P y)}
    (l : list A) :
  filter P (f <$> l) = f <$> filter (λ x, P (f x)) l.
Proof.
  induction l as [|a l IH]; [done|]. csimpl.
  rewrite !filter_cons, IH. by destruct (decide (P (f a))).
Qed.

Lemma falsy_as_null_stored (field : option value) :
  falsy_as_null field
    (Postgres.nullable (Postgres.prepareValue (js_or field (Some VNull)))).
Proof.
  destruct field as [[|b|n|s]|]; simpl; try done.
  unfold js_or. simpl. by case_bool_decide.
Qed.

Lemma pg_createGroup_valid (group : obj) (db : Postgres.database)
    (id name : string) :
  group !! "id" = Some (VStr id) → (String.length id ≤ 255)%nat →
  group !! "name" = Some (VStr name) → (String.length name ≤ 255)%nat →
  id ∉ Postgres.g_id <$> Postgres.groups db →
  PgStorage.createGroup group db =
    (Ok group,
     Postgres.Database
       (Postgres.groups db ++
          [Postgres.GroupRow id name
             (Postgres.prepareValue (js_or (group !! "description") (Some VNull)))])
       (Postgres.videos db) (Postgres.videos_id_seq db)).
Proof.
  intros Hid Hlen Hname Hlen' Hfresh.
  unfold PgStorage.createGroup, Postgres.insert_group. run_query.
  rewrite Hid, Hname. simpl. rewrite !varchar255_short by done. simpl.
  by rewrite bool_decide_eq_true_2.
Qed.




(** ** Bulk replace and read back *)

Lemma delete_groups_all (db : Postgres.database) :
  Postgres.delete_groups (Postgres.Database (Postgres.groups db) [] (Postgres.videos_id_seq db))
  = (Ok (length (Postgres.groups db)),
     Postgres.Database [] [] (Postgres.videos_id_seq db)).
Proof.
  unfold Postgres.delete_groups, Postgres.delete_groups_where. run_query.
  rewrite (filter_all (λ _, True)) by done.
  by rewrite (filter_none (λ _, ¬ True)) by (intros ?? Hn; by apply Hn).
Qed.

(** C4 as stated fails on the relational backend: a video sent with an empty
    caption comes back with [caption: null] (and the group, sent without a
    description, with [description: null]). *)
Lemma pg_replaceAll_getAll_caption :
  PgStorage.saveData
    (Body (Some [cats]) (Some [<["caption" := VStr ""]> clip]))
    (Postgres.Database [] [] 1) = (Ok (), one_group_db) ∧
  ∃ V',
    PgStorage.getData one_group_db =
      (Ok (Dataset [<["description" := VNull]> cats] [V']), one_group_db) ∧
    V' !! "caption" ≠ (<["caption" := VStr ""]> clip) !! "caption".
Proof.
  split; [vm_compute; reflexivity|].
  exists {[ "id" := VStr "1"; "groupId" := VStr "g1"; "url" := VStr "http://x";
            "username" := VStr "u"; "caption" := VNull; "description" := VNull ]}.
  split; [vm_compute; reflexivity|decide_closed].
Qed.

(** C4, amended: [replaceAll({groups:[G], videos:[V]})] then [getAll()]
    gives, in the flat-file backend, exactly the payload; in the relational
    backend (V.groupId = G.id, the required fields texts that fit their
    columns) one group with the id and name of [G] and one video with a
    newly assigned id and the groupId, url and username of [V], where the
    optional description and caption come back as sent, or as [null] when
    absent or empty. *)
Theorem replaceAll_then_getAll `{Server} (G V : obj) :
  (∀ file,
     FileStorage.getData (FileStorage.saveData (Dataset [G] [V]) file)
     = Dataset [G] [V]) ∧
  (∀ db gid gname url username,
     G !! "id" = Some (VStr gid) → (String.length gid ≤ 255)%nat →
     G !! "name" = Some (VStr gname) → (String.length gname ≤ 255)%nat →
     V !! "groupId" = Some (VStr gid) →
     V !! "url" = Some (VStr url) →
     V !! "username" = Some (VStr username) →
     (String.length username ≤ 255)%nat →
     Postgres.videos_id_seq db ≤ Postgres.int4_max →
     ∃ db1 gdescription vcaption vdescription,
       PgStorage.saveData (Body (Some [G]) (Some [V])) db = (Ok (), db1) ∧
       PgStorage.getData db1 =
         (Ok (Dataset
                [ {[ "id" := VStr gid; "name" := VStr gname;
                     "description" := gdescription ]} ]
                [ {[ "id" := VStr (toString (Postgres.videos_id_seq db));
                     "groupId" := VStr gid; "url" := VStr url;
                     "username" := VStr username;
                     "caption" := vcaption;
                     "description" := vdescription ]} ]),
          db1) ∧
       falsy_as_null (G !! "description") gdescription ∧
       falsy_as_null (V !! "caption") vcaption ∧
       falsy_as_null (V !! "description") vdescription).
Proof.
  split; [done|].
  intros db gid gname url username Hid Hlen Hname Hlen' Hgroup Hurl Huser Hlen'' Hseq.
  exists (Postgres.Database
            [Postgres.GroupRow gid gname
               (Postgres.prepareValue (js_or (G !! "description") (Some VNull)))]
            [Postgres.VideoRow (Postgres.videos_id_seq db) (Some gid) url username
               (Postgres.prepareValue (js_or (V !! "caption") (Some VNull)))
               (Postgres.prepareValue (js_or (V !! "description") (Some VNull)))]
            (Postgres.videos_id_seq db + 1)).
  do 3 eexists. split_and!; [| |apply falsy_as_null_stored..].
  - unfold PgStorage.saveData.
    unfold mbind at 1, Postgres.query_bind at 1.
    unfold Postgres.delete_videos at 1, Postgres.statement at 1.
    unfold mbind at 1, Postgres.query_bind at 1.
    rewrite delete_groups_all.
    unfold PgStorage.iterable, Postgres.insert_group, Postgres.insert_video,
      Postgres.nextval.
    run_query.
    rewrite Hid, Hname, Hgroup, Hurl, Huser. simpl.
    rewrite !varchar255_short by done. simpl. run_query.
    rewrite (bool_decide_eq_true_2 _ Hseq). simpl.
    rewrite (bool_decide_eq_true_2 (gid ∈ [gid])) by left. done.
  - vm_compute. reflexivity.
Qed.

Lemma replaceAll_then_getAll_witness :
  ∃ db1 gdescription vcaption vdescription,
    PgStorage.saveData (Body (Some [cats]) (Some [clip]))
      (Postgres.Database [] [] 1) = (Ok (), db1) ∧
    PgStorage.getData db1 =
      (Ok (Dataset
             [ {[ "id" := VStr "g1"; "name" := VStr "Cats";
                  "description" := gdescription ]} ]
             [ {[ "id" := VStr (toString 1);
                  "groupId" := VStr "g1"; "url" := VStr "http://x";
                  "username" := VStr "u";
                  "caption" := vcaption;
                  "description" := vdescription ]} ]),
       db1) ∧
    falsy_as_null (cats !! "description") gdescription ∧
    falsy_as_null (clip !! "caption") vcaption ∧
    falsy_as_null (clip !! "description") vdescription.
Proof.
  apply (replaceAll_then_getAll cats clip);
    solve [decide_closed | reflexivity].
Defined.

(** ** Updating a group *)

Lemma spread_lookup (a b : obj) (k : string) :
  spread a b !! k = match b !! k with Some v => Some v | None => a !! k end.
Proof.
  unfold spread. rewrite lookup_union.
  by destruct (b !! k), (a !! k).
Qed.

Lemma file_updateGroup_absent id updates file :
  (∀ g, g ∈ groups file → g !! "id" ≠ Some (VStr id)) →
  FileStorage.updateGroup id updates file = (None, file).
Proof.
  intros Hno. unfold FileStorage.updateGroup, FileStorage.getData.
  assert (findIndex (λ g : obj, strict_eq (g !! "id") (Some (VStr id)))
            (groups file) = None) as ->; [|done].
  apply findIndex_None. intros g Hg. rewrite strict_eq_true. auto.
Qed.

Lemma varchar255_fits (v : option value) :
  fits v →
  Postgres.varchar255 (Postgres.prepareValue v) = Ok (Postgres.prepareValue v).
Proof.
  intros Hfits. destruct (Postgres.prepareValue v) as [s|] eqn:E; [|done].
  apply varchar255_short. by apply Hfits.
Qed.

(** Without a group of that id the relational backend answers [null],
    provided the id and the name of the patch fit their columns. *)
Lemma pg_updateGroup_absent id updates db :
  id ∉ Postgres.g_id <$> Postgres.groups db →
  fits (js_or (updates !! "id") (Some (VStr id))) →
  fits (updates !! "name") →
  PgStorage.updateGroup id updates db = (Ok None, db).
Proof.
  intros Hno Hid Hname.
  unfold PgStorage.updateGroup, Postgres.update_groups. run_query.
  rewrite !varchar255_fits by done. simpl.
  rewrite (filter_none (λ g, Postgres.g_id g = id)); [done|].
  intros g Hg <-. apply Hno, list_elem_of_fmap. eauto.
Qed.

Example pg_updateGroup_drops_description :
  ∃ r db',
    PgStorage.updateGroup "g1" {[ "name" := VStr "Tigers" ]} described_db
      = (Ok (Some r), db') ∧
    Postgres.group_obj <$> Postgres.groups described_db
      = [ {[ "id" := VStr "g1"; "name" := VStr "Cats";
             "description" := VStr "felines" ]} ] ∧
    r !! "description" = Some VNull ∧
    Postgres.groups db' = [Postgres.GroupRow "g1" "Tigers" None].
Proof.
  exists {[ "id" := VStr "g1"; "name" := VStr "Tigers"; "description" := VNull ]},
         (Postgres.Database [Postgres.GroupRow "g1" "Tigers" None] [] 1).
  split_and!; vm_compute; reflexivity.
Qed.

(** C6, relational backend: [updateGroup(id, patch)] does not merge.  For a
    group that exists and a patch without an id, a patch without a name is
    refused with a not-null violation and nothing changes, and a patch with
    a name and without a description stores and returns the description
    [null], whatever the group had: only the id falls back to the stored
    value. *)
Theorem pg_updateGroup_overwrites_absent_fields
    (id : string) (updates : obj) (db : Postgres.database) :
  id ∈ Postgres.g_id <$> Postgres.groups db →
  (String.length id ≤ 255)%nat →
  truthy (updates !! "id") = false →
  (updates !! "name" = None →
   PgStorage.updateGroup id updates db
     = (Throw (DatabaseError not_null_violation), db)) ∧
  (∀ name,
     updates !! "name" = Some (VStr name) →
     (String.length name ≤ 255)%nat →
     updates !! "description" = None →
     PgStorage.updateGroup id updates db
       = (Ok (Some {[ "id" := VStr id; "name" := VStr name;
                      "description" := VNull ]}),
          Postgres.Database
            ((λ g, if bool_decide (Postgres.g_id g = id)
                   then Postgres.GroupRow id name None else g)
               <$> Postgres.groups db)
            (Postgres.videos db) (Postgres.videos_id_seq db))).
Proof.
  intros Hid Hlen Hnoid.
  destruct (filter_hit_cons id _ Hid) as (g & hit & Hhit & _).
  assert (js_or (updates !! "id") (Some (VStr id)) = Some (VStr id)) as Hkeep
    by (unfold js_or; by rewrite Hnoid).
  split.
  - intros Hname.
    unfold PgStorage.updateGroup, Postgres.update_groups. run_query.
    rewrite Hkeep, Hname, Hhit. simpl.
    by rewrite !varchar255_short by done.
  - intros name Hname Hlen' Hdescription.
    unfold PgStorage.updateGroup, Postgres.update_groups. run_query.
    rewrite Hkeep, Hname, Hdescription, Hhit. simpl.
    rewrite !varchar255_short by done. simpl.
    assert (id ∉ Postgres.g_id <$>
              filter (λ g0, Postgres.g_id g0 ≠ id) (Postgres.groups db)) as Hothers.
    { intros (g' & Heq & [Hg' _]%list_elem_of_filter)%list_elem_of_fmap. done. }
    rewrite (bool_decide_eq_true_2 _ Hothers). simpl.
    rewrite (bool_decide_eq_true_2 (id = id)) by done. simpl.
    reflexivity.
Qed.

Lemma pg_updateGroup_overwrites_absent_fields_witness :
  PgStorage.updateGroup "g1" {[ "description" := VStr "big cats" ]} described_db
    = (Throw (DatabaseError not_null_violation), described_db) ∧
  PgStorage.updateGroup "g1" {[ "name" := VStr "Tigers" ]} described_db
    = (Ok (Some {[ "id" := VStr "g1"; "name" := VStr "Tigers";
                   "description" := VNull ]}),
       Postgres.Database
         ((λ g, if bool_decide (Postgres.g_id g = "g1")
                then Postgres.GroupRow "g1" "Tigers" None else g)
            <$> Postgres.groups described_db)
         (Postgres.videos described_db) (Postgres.videos_id_seq described_db)).
Proof.
  split.
  - apply (pg_updateGroup_overwrites_absent_fields
             "g1" {[ "description" := VStr "big cats" ]} described_db);
      solve [decide_closed | reflexivity].
  - apply (pg_updateGroup_overwrites_absent_fields
             "g1" {[ "name" := VStr "Tigers" ]} described_db);
      solve [decide_closed | reflexivity].
Defined.

(** The flat-file backend does merge. *)
Lemma file_updateGroup_merges (id : string) (updates : obj) (file : dataset) :
  (∃ g, g ∈ groups file ∧ g !! "id" = Some (VStr id)) →
  ∃ index g r file',
    groups file !! index = Some g ∧
    g !! "id" = Some (VStr id) ∧
    FileStorage.updateGroup id updates file = (Some r, file') ∧
    groups file' = <[index := r]> (groups file) ∧
    ∀ k, r !! k = match updates !! k with
                  | Some v => Some v
                  | None => g !! k
                  end.
Proof.
  intros Hex.
  destruct (file_updateGroup_found id updates file Hex)
    as (index & g & Hindex & Hid & _ & Hcall).
  exists index, g, (spread g updates). eexists.
  split_and!; [done|done|exact Hcall|done|apply spread_lookup].
Qed.

(** ** The two relational implementations *)

(** On a body without [groups] that has a video of no group: the adapter
    throws with both tables empty, the module goes on to insert the video. *)
Example saveData_missing_groups :
  adapter_call
    (SaveData (Body None (Some [ {[ "url" := VStr "http://x"; "username" := VStr "u" ]} ])))
    one_group_db
  = (Throw TypeError, Postgres.Database [] [] 2) ∧
  module_call (Some "postgres://localhost/showthem")
    (SaveData (Body None (Some [ {[ "url" := VStr "http://x"; "username" := VStr "u" ]} ])))
    one_group_db
  = (Ok Done,
     Postgres.Database []
       [Postgres.VideoRow 2 None "http://x" "u" None None] 3) ∧
  adapter_call
    (SaveData (Body None (Some [ {[ "url" := VStr "http://x"; "username" := VStr "u" ]} ])))
    one_group_db
  ≠ module_call (Some "postgres://localhost/showthem")
      (SaveData (Body None (Some [ {[ "url" := VStr "http://x"; "username" := VStr "u" ]} ])))
      one_group_db.
Proof.
  split_and!; [vm_compute; reflexivity..|].
  intros Heq. vm_compute in Heq. by injection Heq.
Qed.

Lemma statement_sql_error {A} (s : Postgres.database → result (A * Postgres.database)) :
  (∀ db e, s db = Throw e → sql_error e) →
  ∀ db e db', Postgres.statement s db = (Throw e, db') → sql_error e.
Proof.
  intros Hs db e db'. unfold Postgres.statement.
  destruct (s db) as [[a db1]|e1] eqn:Hrun; [done|].
  intros [= <- _]. eauto.
Qed.

Lemma varchar255_sql_error (v : option string) (e : error) :
  Postgres.varchar255 v = Throw e → sql_error e.
Proof.
  unfold Postgres.varchar255. destruct v as [s|]; [|done].
  repeat case_match; try done. intros [= <-]. by eexists.
Qed.

Lemma not_null_sql_error (v : option string) (e : error) :
  Postgres.not_null v = Throw e → sql_error e.
Proof. destruct v; [done|]. intros [= <-]. by eexists. Qed.

Lemma guard_sql_error (b : bool) (code : sqlstate) (e : error) :
  guard_sql b code = Throw e → sql_error e.
Proof. destruct b; [done|]. intros [= <-]. by eexists. Qed.

Lemma result_bind_Throw {A B} (m : result A) (f : A → result B) (e : error) :
  m ≫= f = Throw e → m = Throw e ∨ ∃ a, m = Ok a ∧ f a = Throw e.
Proof.
  destruct m as [a|e1]; intros Hrun.
  - right. exists a. split; [reflexivity|exact Hrun].
  - left. by injection Hrun as ->.
Qed.

Lemma query_bind_Throw {A B} (m : Postgres.query A) (f : A → Postgres.query B)
    (db db' : Postgres.database) (e : error) :
  (m ≫= f) db = (Throw e, db') →
  m db = (Throw e, db') ∨ ∃ a db1, m db = (Ok a, db1) ∧ f a db1 = (Throw e, db').
Proof.
  unfold mbind, Postgres.query_bind.
  destruct (m db) as [[a|e1] db1]; intros Hrun.
  - right. by exists a, db1.
  - left. by injection Hrun as -> ->.
Qed.

Lemma insert_group_sql_error (id name description : option string)
    (db db' : Postgres.database) (e : error) :
  Postgres.insert_group id name description db = (Throw e, db') → sql_error e.
Proof.
  apply statement_sql_error. clear. intros db e Hrun.
  repeat (apply result_bind_Throw in Hrun as [Hrun|(? & _ & Hrun)];
          [by eauto using varchar255_sql_error, not_null_sql_error, guard_sql_error|]).
  done.
Qed.

Lemma insert_video_sql_error
    (group_id url username caption description : option string)
    (db db' : Postgres.database) (e : error) :
  Postgres.insert_video group_id url username caption description db = (Throw e, db') →
  sql_error e.
Proof.
  unfold Postgres.insert_video. intros Hrun.
  apply query_bind_Throw in Hrun as [Hrun|(? & ? & _ & Hrun)].
  { injection Hrun as Hrun _. eauto using varchar255_sql_error. }
  apply query_bind_Throw in Hrun as [Hrun|(? & ? & _ & Hrun)].
  { injection Hrun as Hrun _. eauto using varchar255_sql_error. }
  apply query_bind_Throw in Hrun as [Hrun|(? & ? & _ & Hrun)].
  { unfold Postgres.nextval in Hrun. case_bool_decide; [done|].
    injection Hrun as <- _. by eexists. }
  revert Hrun. apply statement_sql_error. clear. intros db e Hrun.
  repeat (apply result_bind_Throw in Hrun as [Hrun|(? & _ & Hrun)];
          [by eauto using varchar255_sql_error, not_null_sql_error, guard_sql_error|]).
  done.
Qed.

Lemma for_each_sql_error {A} (xs : list A) (body : A → Postgres.query unit) :
  (∀ x db e db', body x db = (Throw e, db') → sql_error e) →
  ∀ db e db', Postgres.for_each xs body db = (Throw e, db') → sql_error e.
Proof.
  intros Hbody. induction xs as [|x xs IH]; intros db e db' Hrun; [done|].
  simpl in Hrun.
  apply query_bind_Throw in Hrun as [Hrun|(? & ? & _ & Hrun)]; eauto.
Qed.

(** C10: the two relational implementations differ on a bulk replace whose
    body lacks an array.  Without [groups], whatever the videos, the adapter
    has cleared both tables when its loop over [undefined] throws a
    [TypeError]; the module, its connection string configured, reads the
    missing array as empty, as the adapter does an empty array, and never
    ends that way.  Without [videos], the module does what the adapter does
    with an empty array, and where it completes the adapter throws a
    [TypeError] with the groups already written. *)
Theorem saveData_without_array_differs `{Server}
    (DATABASE_URL : option string) (gs : list obj) (videos : option (list obj))
    (db : Postgres.database) :
  Db.getPool DATABASE_URL = true →
  (adapter_call (SaveData (Body None videos)) db
     = (Throw TypeError, Postgres.Database [] [] (Postgres.videos_id_seq db)) ∧
   module_call DATABASE_URL (SaveData (Body None videos)) db
     = adapter_call (SaveData (Body (Some []) (Some (default [] videos)))) db ∧
   adapter_call (SaveData (Body None videos)) db
     ≠ module_call DATABASE_URL (SaveData (Body None videos)) db) ∧
  (module_call DATABASE_URL (SaveData (Body (Some gs) None)) db
     = adapter_call (SaveData (Body (Some gs) (Some []))) db ∧
   ∀ db', module_call DATABASE_URL (SaveData (Body (Some gs) None)) db = (Ok Done, db') →
          adapter_call (SaveData (Body (Some gs) None)) db = (Throw TypeError, db') ∧
          adapter_call (SaveData (Body (Some gs) None)) db
            ≠ module_call DATABASE_URL (SaveData (Body (Some gs) None)) db).
Proof.
  intros Hpool.
  assert (adapter_call (SaveData (Body None videos)) db
          = (Throw TypeError, Postgres.Database [] [] (Postgres.videos_id_seq db)))
    as Hadapter.
  { simpl. unfold PgStorage.saveData.
    unfold fmap, Postgres.query_fmap.
    unfold mbind at 1 2, Postgres.query_bind at 1 2.
    unfold Postgres.delete_videos at 1, Postgres.statement at 1.
    unfold mbind at 1, Postgres.query_bind at 1.
    by rewrite delete_groups_all. }
  assert (∀ data, module_call DATABASE_URL (SaveData data) db
          = adapter_call
              (SaveData (Body (Some (default [] (body_groups data)))
                              (Some (default [] (body_videos data))))) db)
    as Hmodule.
  { intros data. simpl. unfold Db.saveData, PgStorage.saveData. rewrite Hpool.
    reflexivity. }
  split; [split_and!|split].
  - exact Hadapter.
  - apply Hmodule.
  - rewrite Hadapter. intros Heq. symmetry in Heq.
    simpl in Heq. unfold Db.saveData in Heq. rewrite Hpool in Heq.
    simpl in Heq. unfold fmap, Postgres.query_fmap in Heq.
    apply query_bind_Throw in Heq as [Heq|(? & ? & _ & Heq)]; [|done].
    apply query_bind_Throw in Heq as [Heq|(? & ? & _ & Heq)]; [done|].
    apply query_bind_Throw in Heq as [Heq|(? & ? & _ & Heq)].
    { unfold Postgres.delete_groups, Postgres.delete_groups_where in Heq. done. }
    apply query_bind_Throw in Heq as [Heq|(? & ? & _ & Heq)]; [done|].
    apply for_each_sql_error in Heq as [code [=]].
    intros video db1 e db2 Hrun.
    apply query_bind_Throw in Hrun as [Hrun|(? & ? & _ & Hrun)]; [|done].
    by apply insert_video_sql_error in Hrun.
  - apply Hmodule.
  - intros db' Hrun.
    assert (adapter_call (SaveData (Body (Some gs) None)) db = (Throw TypeError, db'))
      as Hthrow.
    { rewrite Hmodule in Hrun. revert Hrun. simpl.
      unfold PgStorage.saveData. simpl.
      unfold fmap, Postgres.query_fmap.
      unfold mbind, Postgres.query_bind, mret, Postgres.query_ret, Postgres.throw.
      repeat case_match; simplify_eq; try done.
      match goal with Hfor : Postgres.for_each [] _ _ = _ |- _ =>
        injection Hfor as _ <- end.
      by intros [= <-]. }
    split; [exact Hthrow|]. by rewrite Hthrow, Hrun.
Qed.

Lemma saveData_without_array_differs_witness :
  (adapter_call (SaveData (Body None (Some [clip]))) one_group_db
     = (Throw TypeError, Postgres.Database [] [] 2) ∧
   module_call (Some "postgres://localhost/showthem")
       (SaveData (Body None (Some [clip]))) one_group_db
     = adapter_call (SaveData (Body (Some []) (Some [clip]))) one_group_db ∧
   adapter_call (SaveData (Body None (Some [clip]))) one_group_db
     ≠ module_call (Some "postgres://localhost/showthem")
         (SaveData (Body None (Some [clip]))) one_group_db) ∧
  (module_call (Some "postgres://localhost/showthem")
       (SaveData (Body (Some [cats]) None)) one_group_db
     = adapter_call (SaveData (Body (Some [cats]) (Some []))) one_group_db ∧
   ∀ db', module_call (Some "postgres://localhost/showthem")
            (SaveData (Body (Some [cats]) None)) one_group_db = (Ok Done, db') →
          adapter_call (SaveData (Body (Some [cats]) None)) one_group_db
            = (Throw TypeError, db') ∧
          adapter_call (SaveData (Body (Some [cats]) None)) one_group_db
            ≠ module_call (Some "postgres://localhost/showthem")
                (SaveData (Body (Some [cats]) None)) one_group_db).
Proof.
  apply (saveData_without_array_differs
           (Some "postgres://localhost/showthem") [cats] (Some [clip]) one_group_db).
  reflexivity.
Defined.

(** X17: with a connection string configured, the adapter and the module
    compute the same result and leave the database in the same state for
    every operation of the contract and every input, when a bulk-replace
    body has both of its arrays. *)
Theorem adapter_module_equivalent `{Server}
    (DATABASE_URL : option string) (r : request) (db : Postgres.database) :
  Db.getPool DATABASE_URL = true →
  (∀ data, r = SaveData data →
           is_Some (body_groups data) ∧ is_Some (body_videos data)) →
  adapter_call r db = module_call DATABASE_URL r db.
Proof.
  intros Hpool Hbody.
  destruct r as [|data| | | | | | | |]; simpl;
    unfold Db.getData, Db.saveData, Db.getGroups, Db.createGroup,
      Db.updateGroup, Db.deleteGroup, Db.getVideos, Db.createVideo,
      Db.updateVideo, Db.deleteVideo;
    rewrite ?Hpool; simpl; try reflexivity.
  destruct (Hbody data eq_refl) as [[gs Hgs] [vs Hvs]].
  unfold PgStorage.saveData. rewrite Hgs, Hvs. reflexivity.
Qed.

Lemma adapter_module_equivalent_witness :
  adapter_call (SaveData (Body (Some [cats]) (Some [clip]))) one_group_db
  = module_call (Some "postgres://localhost/showthem")
      (SaveData (Body (Some [cats]) (Some [clip]))) one_group_db.
Proof.
  apply adapter_module_equivalent; [reflexivity|].
  intros data [= <-]. split; eexists; reflexivity.
Defined.

(** ** Reasoning about storage methods *)

Lemma result_bind_Ok {A B} (m : result A) (f : A → result B) (b : B) :
  m ≫= f = Ok b ↔ ∃ a, m = Ok a ∧ f a = Ok b.
Proof.
  destruct m as [a|e]; simpl; split.
  - eauto.
  - by intros (a' & [= <-] & Hf).
  - done.
  - by intros (a' & [=] & _).
Qed.

Lemma guard_sql_Ok (b : bool) (code : sqlstate) :
  guard_sql b code = Ok () ↔ b = true.
Proof. by destruct b. Qed.

Lemma not_null_Ok (v : option string) (s : string) :
  Postgres.not_null v = Ok s ↔ v = Some s.
Proof. destruct v; simpl; split; congruence. Qed.

Lemma length_substring_le (s : string) (n m : nat) :
  (String.length (String.substring n m s) ≤ m)%nat.
Proof.
  revert n m. induction s as [|c s IH]; intros [|n] [|m]; simpl; try lia.
  - specialize (IH 0%nat m). lia.
  - apply (IH n 0%nat).
  - apply (IH n (S m)).
Qed.

Lemma varchar255_Ok (v : option string) (s : string) :
  Postgres.varchar255 v = Ok (Some s) → (String.length s ≤ 255)%nat.
Proof.
  unfold Postgres.varchar255. destruct v as [t|]; [|done].
  case_bool_decide; [by intros [= <-]|].
  destruct (Postgres.all_spaces _); [|done].
  intros [= <-]. apply length_substring_le.
Qed.

Section respects.
Context (R : relation Postgres.database) `{!PreOrder R}.

Lemma respects_ret {A} (a : A) : respects R (mret a : Postgres.query A).
Proof. intros db. reflexivity. Qed.

Lemma respects_throw {A} (e : error) :
  respects R (Postgres.throw e : Postgres.query A).
Proof. intros db. reflexivity. Qed.

Lemma respects_bind {A B} (m : Postgres.query A) (f : A → Postgres.query B) :
  respects R m → (∀ a, respects R (f a)) → respects R (m ≫= f).
Proof.
  intros Hm Hf db. specialize (Hm db).
  unfold mbind, Postgres.query_bind.
  destruct (m db) as [[a|e] db1]; simpl in *; [|done].
  etransitivity; [exact Hm|apply Hf].
Qed.

Lemma respects_fmap {A B} (g : A → B) (m : Postgres.query A) :
  respects R m → respects R (g <$> m).
Proof. intros Hm. apply respects_bind; [done|]. intros a. apply respects_ret. Qed.

Lemma respects_for_each {A} (xs : list A) (body : A → Postgres.query unit) :
  (∀ x, respects R (body x)) → respects R (Postgres.for_each xs body).
Proof.
  intros Hbody. induction xs as [|x xs IH]; simpl.
  - apply respects_ret.
  - apply respects_bind; [apply Hbody|]. by intros _.
Qed.

Lemma respects_statement {A}
    (s : Postgres.database → result (A * Postgres.database)) :
  (∀ db a db', s db = Ok (a, db') → R db db') →
  respects R (Postgres.statement s).
Proof.
  intros Hs db. unfold Postgres.statement.
  destruct (s db) as [[a db']|e] eqn:E; simpl; [by eapply Hs|reflexivity].
Qed.

Lemma respects_iterable {A} (xs : option (list A)) :
  respects R (PgStorage.iterable xs).
Proof. destruct xs; [apply respects_ret|apply respects_throw]. Qed.

Lemma respects_db_query {A} (db : bool) (q : Postgres.query A) :
  respects R q → respects R (Db.db_query db q).
Proof. destruct db; [done|]. intros _. apply respects_throw. Qed.

End respects.

Global Instance keeps_preorder (P : Postgres.database → Prop) : PreOrder (keeps P).
Proof. split; unfold keeps; [intros db; auto|intros a b c; auto]. Qed.

Global Instance seq_le_preorder : PreOrder seq_le.
Proof. split; unfold seq_le; [intros db; lia|intros a b c; lia]. Qed.

(** ** The constraints are kept *)

Lemma NoDup_fmap_sub {A B} (f : A → B) (l k : list A) :
  l `sublist_of` k → NoDup (f <$> k) → NoDup (f <$> l).
Proof. intros Hsub Hk. eapply sublist_NoDup; [exact Hk|by apply fmap_sublist]. Qed.

Lemma delete_videos_ok : respects (keeps db_ok) Postgres.delete_videos.
Proof.
  apply respects_statement; [apply _|].
  intros db n db' [= _ <-] (Hg & Hv & Hfk & Hseq & Hgl & Hvl).
  split_and!; simpl; try done.
  - constructor.
  - intros v g Hin. by apply elem_of_nil in Hin.
  - intros v Hin. by apply elem_of_nil in Hin.
  - intros v Hin. by apply elem_of_nil in Hin.
Qed.

Lemma delete_groups_where_ok (cond : Postgres.group_row → Prop)
    `{!∀ g, Decision (cond g)} :
  respects (keeps db_ok) (Postgres.delete_groups_where cond).
Proof.
  apply respects_statement; [apply _|].
  intros db n db' [= _ <-] (Hg & Hv & Hfk & Hseq & Hgl & Hvl).
  split_and!; simpl.
  - eapply NoDup_fmap_sub; [apply sublist_filter|done].
  - eapply NoDup_fmap_sub; [apply sublist_filter|done].
  - intros v g [Hkeep Hin]%list_elem_of_filter Hgid.
    pose proof (Hfk v g Hin Hgid) as (row & -> & Hrow)%list_elem_of_fmap.
    apply list_elem_of_fmap. exists row. split; [done|].
    apply list_elem_of_filter. split; [|done].
    intros Hcond. apply Hkeep. rewrite Hgid.
    apply list_elem_of_fmap. exists row. split; [done|].
    by apply list_elem_of_filter.
  - intros v [_ Hin]%list_elem_of_filter. auto.
  - intros g [_ Hin]%list_elem_of_filter. auto.
  - intros v [_ Hin]%list_elem_of_filter. auto.
Qed.

Lemma insert_group_ok (id name description : option string) :
  respects (keeps db_ok) (Postgres.insert_group id name description).
Proof.
  apply respects_statement; [apply _|].
  intros db [] db' Hs (Hg & Hv & Hfk & Hseq & Hgl & Hvl).
  apply result_bind_Ok in Hs as (id1 & Hid1 & Hs).
  apply result_bind_Ok in Hs as (name1 & Hname1 & Hs).
  apply result_bind_Ok in Hs as (id2 & ->%not_null_Ok & Hs).
  apply result_bind_Ok in Hs as (name2 & ->%not_null_Ok & Hs).
  apply result_bind_Ok in Hs as ([] & Hfresh%guard_sql_Ok%bool_decide_eq_true & Hs).
  injection Hs as <-.
  split_and!; simpl; try done.
  - rewrite fmap_app. apply NoDup_app. split_and!; [done| |apply NoDup_singleton].
    intros x Hx [->|[]%elem_of_nil]%elem_of_cons. done.
  - intros v g Hin Hgid. rewrite fmap_app. apply elem_of_app. left. eauto.
  - intros g [Hin|[->|[]%elem_of_nil]%elem_of_cons]%elem_of_app; [auto|].
    simpl. split; by eapply varchar255_Ok.
Qed.

Lemma nextval_ok : respects (keeps db_ok) Postgres.nextval.
Proof.
  intros db (Hg & Hv & Hfk & Hseq & Hgl & Hvl). unfold Postgres.nextval.
  case_bool_decide; simpl; [|done].
  split_and!; simpl; try done.
  intros v Hin. specialize (Hseq v Hin). lia.
Qed.

Lemma insert_video_row_ok
    (id : Z) (group_id url username caption description : option string) :
  (∀ s, username = Some s → (String.length s ≤ 255)%nat) →
  respects (keeps (λ db, db_ok db ∧ id < Postgres.videos_id_seq db))
    (Postgres.statement (λ db,
      url ← Postgres.not_null url;
      username ← Postgres.not_null username;
      _ ← guard_sql (bool_decide (id ∉ Postgres.v_id <$> Postgres.videos db))
            unique_violation;
      _ ← guard_sql (Postgres.references_ok db group_id) foreign_key_violation;
      Ok (id, Postgres.Database (Postgres.groups db)
                (Postgres.videos db ++
                   [Postgres.VideoRow id group_id url username caption description])
                (Postgres.videos_id_seq db)))).
Proof.
  intros Hwidth.
  apply respects_statement; [apply _|].
  intros db a db' Hs [(Hg & Hv & Hfk & Hseq & Hgl & Hvl) Hid].
  apply result_bind_Ok in Hs as (url2 & ->%not_null_Ok & Hs).
  apply result_bind_Ok in Hs as (user2 & ->%not_null_Ok & Hs).
  apply result_bind_Ok in Hs as ([] & Hfresh%guard_sql_Ok%bool_decide_eq_true & Hs).
  apply result_bind_Ok in Hs as ([] & Href%guard_sql_Ok & Hs).
  injection Hs as _ <-.
  split; [|done]. split_and!; simpl; try done.
  - rewrite fmap_app. apply NoDup_app. split_and!; [done| |apply NoDup_singleton].
    intros x Hx [->|[]%elem_of_nil]%elem_of_cons. done.
  - intros v g [Hin|[->|[]%elem_of_nil]%elem_of_cons]%elem_of_app; [eauto|].
    simpl. intros ->. simpl in Href. by apply bool_decide_eq_true in Href.
  - intros v [Hin|[->|[]%elem_of_nil]%elem_of_cons]%elem_of_app; [auto|done].
  - intros v [Hin|[->|[]%elem_of_nil]%elem_of_cons]%elem_of_app; [auto|].
    simpl. by apply Hwidth.
Qed.

Lemma insert_video_ok
    (group_id url username caption description : option string) :
  respects (keeps db_ok)
    (Postgres.insert_video group_id url username caption description).
Proof.
  intros db Hok. unfold Postgres.insert_video, Postgres.planned.
  unfold mbind, Postgres.query_bind.
  destruct (Postgres.varchar255 group_id) as [group1|]; [|done].
  destruct (Postgres.varchar255 username) as [user1|] eqn:Euser; [|done].
  pose proof (nextval_ok db Hok) as Hnext.
  unfold Postgres.nextval in *. case_bool_decide; simpl in *; [|done].
  eapply (insert_video_row_ok (Postgres.videos_id_seq db)).
  - intros s ->. by eapply varchar255_Ok.
  - simpl. split; [done|lia].
Qed.

Lemma NoDup_fmap_replace (w id : string) (l : list string) :
  NoDup l → id ∉ filter (λ x, x ≠ w) l →
  NoDup ((λ x, if bool_decide (x = w) then id else x) <$> l).
Proof.
  induction l as [|x l IH]; [constructor|].
  intros [Hx Hl]%NoDup_cons Hid. csimpl. apply NoDup_cons.
  case_bool_decide as Hw.
  - subst x. rewrite filter_cons_False in Hid by (intros Hn; by apply Hn).
    assert (((λ x, if bool_decide (x = w) then id else x) <$> l) = l) as ->.
    { rewrite <-(list_fmap_id l) at 2. apply list_fmap_ext.
      intros i y Hy. rewrite bool_decide_eq_false_2; [done|].
      intros ->. apply Hx. by eapply list_elem_of_lookup_2. }
    split; [|done]. intros Hin. apply Hid, list_elem_of_filter.
    split; [|done]. by intros ->.
  - rewrite filter_cons_True in Hid by done.
    apply not_elem_of_cons in Hid as [Hne Hid].
    split; [|by apply IH].
    intros (y & Hy & Hin)%list_elem_of_fmap.
    case_bool_decide; subst; done.
Qed.

Lemma update_groups_ok (id name description : option string) (where_id : string) :
  respects (keeps db_ok)
    (Postgres.update_groups id name description where_id).
Proof.
  apply respects_statement; [apply _|].
  intros db rows db' Hs (Hg & Hv & Hfk & Hseq & Hgl & Hvl).
  apply result_bind_Ok in Hs as (id1 & Hid1 & Hs).
  apply result_bind_Ok in Hs as (name1 & Hname1 & Hs). simpl in Hs.
  destruct (filter (λ g, Postgres.g_id g = where_id) (Postgres.groups db))
    as [|g0 hit] eqn:Ehit; [by injection Hs as _ <-|].
  assert (g0 ∈ Postgres.groups db ∧ Postgres.g_id g0 = where_id) as [Hg0 Hg0id].
  { assert (g0 ∈ filter (λ g, Postgres.g_id g = where_id) (Postgres.groups db))
      as [??]%list_elem_of_filter by (rewrite Ehit; left). done. }
  apply result_bind_Ok in Hs as (id2 & ->%not_null_Ok & Hs).
  apply result_bind_Ok in Hs as (name2 & ->%not_null_Ok & Hs).
  apply result_bind_Ok in Hs as ([] & Hfresh%guard_sql_Ok%bool_decide_eq_true & Hs).
  apply result_bind_Ok in Hs as ([] & Href%guard_sql_Ok & Hs).
  injection Hs as _ <-.
  set (row := Postgres.GroupRow id2 name2 description).
  assert (Postgres.g_id <$>
            ((λ g, if bool_decide (Postgres.g_id g = where_id) then row else g)
               <$> Postgres.groups db)
          = (λ x, if bool_decide (x = where_id) then id2 else x)
              <$> (Postgres.g_id <$> Postgres.groups db)) as Hids.
  { rewrite <-!list_fmap_compose. apply list_fmap_ext. intros i g _.
    unfold compose.
    destruct (bool_decide (Postgres.g_id g = where_id)); reflexivity. }
  split_and!; simpl; try done.
  - rewrite Hids. apply NoDup_fmap_replace; [done|].
    by rewrite (filter_fmap Postgres.g_id).
  - intros v g Hin Hgid. rewrite Hids.
    pose proof (Hfk v g Hin Hgid) as Hgin.
    apply list_elem_of_fmap. destruct (decide (g = where_id)) as [->|Hne].
    + exists where_id. rewrite bool_decide_eq_true_2 by done. split; [|done].
      apply orb_true_iff in Href as [Hsame%bool_decide_eq_true|Hnone%bool_decide_eq_true];
        [done|].
      exfalso. apply Hnone, list_elem_of_fmap. eauto.
    + exists g. by rewrite bool_decide_eq_false_2.
  - intros g (g' & -> & Hin)%list_elem_of_fmap.
    destruct (bool_decide (Postgres.g_id g' = where_id)); [|auto].
    simpl. split; by eapply varchar255_Ok.
Qed.

Lemma update_videos_ok `{Server}
    (group_id url username caption description : option string)
    (where_id : string) :
  respects (keeps db_ok)
    (Postgres.update_videos group_id url username caption description where_id).
Proof.
  apply respects_statement; [apply _|].
  intros db rows db' Hs (Hg & Hv & Hfk & Hseq & Hgl & Hvl). simpl in Hs.
  apply result_bind_Ok in Hs as (n & Hn & Hs).
  apply result_bind_Ok in Hs as (group1 & Hgroup1 & Hs).
  apply result_bind_Ok in Hs as (user1 & Huser1 & Hs). simpl in Hs.
  destruct (filter (λ v, Postgres.v_id v = n) (Postgres.videos db))
    as [|v0 hit] eqn:Ehit; [by injection Hs as _ <-|].
  apply result_bind_Ok in Hs as (url2 & ->%not_null_Ok & Hs).
  apply result_bind_Ok in Hs as (user2 & ->%not_null_Ok & Hs).
  apply result_bind_Ok in Hs as ([] & Href%guard_sql_Ok & Hs).
  injection Hs as _ <-.
  assert (Postgres.v_id <$>
            ((λ v, if bool_decide (Postgres.v_id v = n)
                   then Postgres.VideoRow (Postgres.v_id v) group1 url2 user2
                          caption description
                   else v) <$> Postgres.videos db)
          = Postgres.v_id <$> Postgres.videos db) as Hids.
  { rewrite <-list_fmap_compose. apply list_fmap_ext. intros i v _.
    unfold compose.
    destruct (bool_decide (Postgres.v_id v = n)); reflexivity. }
  split_and!; simpl; try done.
  - by rewrite Hids.
  - intros v g (v' & -> & Hin)%list_elem_of_fmap.
    destruct (bool_decide (Postgres.v_id v' = n)) eqn:Hhit; [|eauto].
    apply bool_decide_eq_true in Hhit. simpl. intros ->.
    rewrite forallb_forall in Href.
    assert (In v' (v0 :: hit)) as Hv'.
    { apply list_elem_of_In. rewrite <-Ehit. by apply list_elem_of_filter. }
    apply Href in Hv' as [Hsame%bool_decide_eq_true|Hok]%orb_true_iff.
    + eauto.
    + simpl in Hok. by apply bool_decide_eq_true in Hok.
  - intros v (v' & -> & Hin)%list_elem_of_fmap.
    destruct (bool_decide (Postgres.v_id v' = n)); simpl; auto.
  - intros v (v' & -> & Hin)%list_elem_of_fmap.
    destruct (bool_decide (Postgres.v_id v' = n)); simpl;
      [by eapply varchar255_Ok|auto].
Qed.

Lemma delete_videos_where_ok `{Server} (where_id : string) :
  respects (keeps db_ok) (Postgres.delete_videos_where where_id).
Proof.
  apply respects_statement; [apply _|].
  intros db rows db' Hs (Hg & Hv & Hfk & Hseq & Hgl & Hvl). simpl in Hs.
  apply result_bind_Ok in Hs as (n & Hn & Hs). injection Hs as _ <-.
  split_and!; simpl; try done.
  - eapply NoDup_fmap_sub; [apply sublist_filter|done].
  - intros v g [_ Hin]%list_elem_of_filter. eauto.
  - intros v [_ Hin]%list_elem_of_filter. auto.
  - intros v [_ Hin]%list_elem_of_filter. auto.
Qed.

Lemma select_groups_ok `{Server} : respects (keeps db_ok) Postgres.select_groups.
Proof. by intros db. Qed.

Lemma select_videos_ok : respects (keeps db_ok) Postgres.select_videos.
Proof. by intros db. Qed.

(** ** The sequence does not go back *)









(** ** From the statements to the methods *)

Section methods.
Context `{Server} (R : relation Postgres.database) `{!PreOrder R}.
Hypothesis delete_videos_R : respects R Postgres.delete_videos.
Hypothesis delete_groups_where_R :
  ∀ (cond : Postgres.group_row → Prop) `{!∀ g, Decision (cond g)},
    respects R (Postgres.delete_groups_where cond).
Hypothesis insert_group_R :
  ∀ id name description, respects R (Postgres.insert_group id name description).
Hypothesis insert_video_R :
  ∀ group_id url username caption description,
    respects R (Postgres.insert_video group_id url username caption description).
Hypothesis update_groups_R :
  ∀ id name description where_id,
    respects R (Postgres.update_groups id name description where_id).
Hypothesis update_videos_R :
  ∀ group_id url username caption description where_id,
    respects R
      (Postgres.update_videos group_id url username caption description where_id).
Hypothesis delete_videos_where_R :
  ∀ where_id, respects R (Postgres.delete_videos_where where_id).

Lemma select_groups_R : respects R Postgres.select_groups.
Proof. intros db. reflexivity. Qed.

Lemma select_videos_R : respects R Postgres.select_videos.
Proof. intros db. reflexivity. Qed.

Ltac methods_respect :=
  repeat first
    [ apply respects_ret; apply _
    | apply respects_throw; apply _
    | apply respects_iterable; apply _
    | apply select_groups_R
    | apply select_videos_R
    | apply delete_videos_R
    | apply delete_groups_where_R
    | apply insert_group_R
    | apply insert_video_R
    | apply update_groups_R
    | apply update_videos_R
    | apply delete_videos_where_R
    | apply respects_db_query; [apply _|]
    | apply respects_fmap; [apply _|]
    | apply respects_for_each; [apply _|intros ?]
    | apply respects_bind; [apply _| |intros ?] ].

Lemma adapter_call_respects (r : request) : respects R (adapter_call r).
Proof.
  destruct r; simpl;
    unfold PgStorage.getData, PgStorage.saveData, PgStorage.getGroups,
      PgStorage.createGroup, PgStorage.updateGroup, PgStorage.deleteGroup,
      PgStorage.getVideos, PgStorage.createVideo, PgStorage.updateVideo,
      PgStorage.deleteVideo, Postgres.delete_groups;
    methods_respect.
Qed.

Lemma module_call_respects (DATABASE_URL : option string) (r : request) :
  respects R (module_call DATABASE_URL r).
Proof.
  destruct r; simpl;
    unfold Db.getData, Db.saveData, Db.getGroups, Db.createGroup,
      Db.updateGroup, Db.deleteGroup, Db.getVideos, Db.createVideo,
      Db.updateVideo, Db.deleteVideo, Postgres.delete_groups;
    try destruct (negb (Db.getPool DATABASE_URL));
    methods_respect.
Qed.

End methods.

(** X1: every operation of the storage contract, on the adapter and on the
    standalone module, leaves a database that satisfies the constraints of
    the schema in a state that satisfies them, whether the operation
    returns or throws (a bulk replace that fails half-way included). *)
Theorem constraints_kept `{Server}
    (DATABASE_URL : option string) (r : request) (db : Postgres.database) :
  db_ok db →
  db_ok (adapter_call r db).2 ∧ db_ok (module_call DATABASE_URL r db).2.
Proof.
  intros Hok. split.
  - apply (adapter_call_respects (keeps db_ok));
      auto using delete_videos_ok, insert_group_ok, insert_video_ok,
        update_groups_ok, update_videos_ok, delete_videos_where_ok,
        @delete_groups_where_ok.
  - apply (module_call_respects (keeps db_ok));
      auto using delete_videos_ok, insert_group_ok, insert_video_ok,
        update_groups_ok, update_videos_ok, delete_videos_where_ok,
        @delete_groups_where_ok.
Qed.

Lemma one_group_db_ok : db_ok one_group_db.
Proof.
  split_and!; [decide_closed|decide_closed|..].
  - intros v g [->|[]%elem_of_nil]%elem_of_cons [= <-]. decide_closed.
  - intros v [->|[]%elem_of_nil]%elem_of_cons. decide_closed.
  - intros g [->|[]%elem_of_nil]%elem_of_cons. split; decide_closed.
  - intros v [->|[]%elem_of_nil]%elem_of_cons. decide_closed.
Defined.

Lemma constraints_kept_witness :
  db_ok (adapter_call (SaveData (Body (Some [cats; cats]) None)) one_group_db).2 ∧
  db_ok (module_call (Some "postgres://localhost/showthem")
           (SaveData (Body (Some [cats; cats]) None)) one_group_db).2.
Proof.
  apply (constraints_kept (Some "postgres://localhost/showthem")
           (SaveData (Body (Some [cats; cats]) None)) one_group_db).
  apply one_group_db_ok.
Defined.


(** ** Videos in the relational backend *)

Lemma pg_createVideo_valid (video : obj) (db : Postgres.database)
    (g url username : string) :
  db_ok db →
  Postgres.videos_id_seq db ≤ Postgres.int4_max →
  video !! "groupId" = Some (VStr g) →
  g ∈ Postgres.g_id <$> Postgres.groups db →
  video !! "url" = Some (VStr url) →
  video !! "username" = Some (VStr username) →
  (String.length username ≤ 255)%nat →
  PgStorage.createVideo video db =
    (Ok (<["id" := VStr (toString (Postgres.videos_id_seq db))]> video),
     Postgres.Database (Postgres.groups db)
       (Postgres.videos db ++
          [Postgres.VideoRow (Postgres.videos_id_seq db) (Some g) url username
             (Postgres.prepareValue (js_or (video !! "caption") (Some VNull)))
             (Postgres.prepareValue (js_or (video !! "description") (Some VNull)))])
       (Postgres.videos_id_seq db + 1)).
Proof.
  intros (Hg & Hv & Hfk & Hseq & Hgl & Hvl) Hmax Hgroup Hin Hurl Huser Hlen.
  assert (String.length g ≤ 255)%nat as Hglen.
  { apply list_elem_of_fmap in Hin as (row & -> & Hrow). by apply Hgl. }
  unfold PgStorage.createVideo, Postgres.insert_video, Postgres.nextval.
  run_query. rewrite (bool_decide_eq_true_2 _ Hmax). simpl.
  rewrite Hgroup, Hurl, Huser. simpl.
  rewrite !varchar255_short by done. simpl.
  assert (Postgres.videos_id_seq db ∉ Postgres.v_id <$> Postgres.videos db)
    as Hfresh.
  { intros (v & Heq & Hvin)%list_elem_of_fmap. specialize (Hseq v Hvin). lia. }
  rewrite (bool_decide_eq_true_2 _ Hfresh). simpl.
  unfold Postgres.references_ok. simpl.
  by rewrite (bool_decide_eq_true_2 _ Hin).
Qed.

(** X3: in the relational backend, on a database that meets its
    constraints, [createVideo] of a video with url, username and the id of
    an existing group returns the video under the next id of the sequence;
    [getVideos] then lists one record more, exactly one of them under that
    id, with the groupId, url and username that were sent. *)
Theorem createVideo_then_listVideos `{Server} (video : obj)
    (db : Postgres.database) (g url username : string) :
  db_ok db →
  Postgres.videos_id_seq db ≤ Postgres.int4_max →
  video !! "groupId" = Some (VStr g) →
  g ∈ Postgres.g_id <$> Postgres.groups db →
  video !! "url" = Some (VStr url) →
  video !! "username" = Some (VStr username) →
  (String.length username ≤ 255)%nat →
  ∃ created db1 rows listed,
    PgStorage.createVideo video db = (Ok created, db1) ∧
    created = <["id" := VStr (toString (Postgres.videos_id_seq db))]> video ∧
    PgStorage.getVideos db1 = (Ok rows, db1) ∧
    length rows = S (length (Postgres.videos db)) ∧
    filter (λ x, x !! "id" = created !! "id") rows = [listed] ∧
    listed !! "groupId" = Some (VStr g) ∧
    listed !! "url" = Some (VStr url) ∧
    listed !! "username" = Some (VStr username).
Proof.
  intros Hok Hmax Hgroup Hin Hurl Huser Hlen.
  pose proof (pg_createVideo_valid video db g url username
                Hok Hmax Hgroup Hin Hurl Huser Hlen) as Hcreate.
  destruct Hok as (Hg & Hv & Hfk & Hseq & Hgl & Hvl).
  set (row := Postgres.VideoRow (Postgres.videos_id_seq db) (Some g) url username
                (Postgres.prepareValue (js_or (video !! "caption") (Some VNull)))
                (Postgres.prepareValue (js_or (video !! "description") (Some VNull))))
    in *.
  set (shown := λ v, <["id" := VStr (toString (Postgres.v_id v))]>
                       (Postgres.video_obj v)).
  eexists _, _, _, (shown row). split_and!; [exact Hcreate|reflexivity|reflexivity|..].
  - simpl. rewrite length_fmap, merge_sort_Permutation, length_app. simpl. lia.
  - simpl. rewrite lookup_insert_eq.
    rewrite (filter_fmap shown).
    assert (filter (λ v, shown v !! "id"
                         = Some (VStr (toString (Postgres.videos_id_seq db))))
              (merge_sort Postgres.by_id (Postgres.videos db ++ [row]))
            = [row]) as ->; [|done].
    apply Permutation_singleton_r.
    rewrite merge_sort_Permutation, filter_app.
    rewrite filter_cons_True, filter_nil
      by (unfold shown; by rewrite lookup_insert_eq).
    rewrite filter_none; [done|].
    intros v Hvin. unfold shown. rewrite lookup_insert_eq. intros [= Heq].
    apply (inj pretty) in Heq. specialize (Hseq v Hvin). lia.
  - done.
  - done.
  - done.
Qed.



Lemma createVideo_then_listVideos_witness :
  ∃ created db1 rows listed,
    PgStorage.createVideo clip one_group_db = (Ok created, db1) ∧
    created = <["id" := VStr (toString (Postgres.videos_id_seq one_group_db))]> clip ∧
    PgStorage.getVideos db1 = (Ok rows, db1) ∧
    length rows = S (length (Postgres.videos one_group_db)) ∧
    filter (λ x, x !! "id" = created !! "id") rows = [listed] ∧
    listed !! "groupId" = Some (VStr "g1") ∧
    listed !! "url" = Some (VStr "http://x") ∧
    listed !! "username" = Some (VStr "u").
Proof.
  apply (createVideo_then_listVideos clip one_group_db "g1" "http://x" "u");
    solve [decide_closed | reflexivity | apply one_group_db_ok].
Defined.

(** ** Creating and deleting again *)

(** X5: creating a group under an id that no group and no video uses and
    deleting it again gives back the state from before, in the flat-file
    backend and (on a database that meets its constraints) in the relational
    one. *)
Theorem createGroup_then_deleteGroup (group : obj) (id name : string) :
  group !! "id" = Some (VStr id) →
  group !! "name" = Some (VStr name) →
  (∀ file,
     (∀ g, g ∈ groups file → g !! "id" ≠ Some (VStr id)) →
     (∀ v, v ∈ videos file → v !! "groupId" ≠ Some (VStr id)) →
     FileStorage.deleteGroup id (FileStorage.createGroup group file).2
     = (true, file)) ∧
  (∀ db,
     db_ok db →
     (String.length id ≤ 255)%nat → (String.length name ≤ 255)%nat →
     id ∉ Postgres.g_id <$> Postgres.groups db →
     ∃ db1,
       PgStorage.createGroup group db = (Ok group, db1) ∧
       PgStorage.deleteGroup id db1 = (Ok true, db)).
Proof.
  intros Hid Hname. split.
  - intros file Hfresh Hnovideo.
    unfold FileStorage.createGroup, FileStorage.getData, FileStorage.saveData.
    simpl.
    assert (findIndex (λ g : obj, strict_eq (g !! "id") (Some (VStr id)))
              (groups file ++ [group]) = Some (length (groups file))) as Hfind.
    { apply findIndex_Some. exists group. split_and!.
      - by rewrite lookup_app_r, Nat.sub_diag.
      - by apply strict_eq_true.
      - intros g Hg. rewrite take_app_length in Hg.
        rewrite strict_eq_true. auto. }
    unfold FileStorage.deleteGroup, FileStorage.getData, FileStorage.saveData.
    simpl. rewrite Hfind. destruct file as [gs vs]. simpl in *.
    do 2 f_equal.
    + rewrite delete_take_drop, take_app_length.
      rewrite drop_ge by (rewrite length_app; simpl; lia).
      apply app_nil_r.
    + apply filter_all. intros v Hv. apply strict_eq_false. auto.
  - intros db (Hg & Hv & Hfk & Hseq & Hgl & Hvl) Hlen Hlen' Hfresh.
    eexists. split; [by apply pg_createGroup_valid|].
    rewrite pg_deleteGroup_present
      by (simpl; rewrite fmap_app; apply elem_of_app; right; left).
    simpl. destruct db as [gs vs seq]. simpl in *. do 2 f_equal.
    + rewrite filter_app, filter_cons_False, filter_nil, app_nil_r
        by (simpl; intros Hn; by apply Hn).
      apply filter_all. intros g Hgin <-. apply Hfresh, list_elem_of_fmap. eauto.
    + apply filter_all. intros v Hvin Hgid. apply Hfresh. eauto.
Qed.

Lemma createGroup_then_deleteGroup_witness :
  FileStorage.deleteGroup "g2" (FileStorage.createGroup dogs one_group_file).2
  = (true, one_group_file) ∧
  ∃ db1,
    PgStorage.createGroup dogs one_group_db = (Ok dogs, db1) ∧
    PgStorage.deleteGroup "g2" db1 = (Ok true, one_group_db).
Proof.
  split.
  - apply (createGroup_then_deleteGroup dogs "g2" "Dogs"); try reflexivity.
    + apply (proj1 (Forall_forall _ _)). decide_closed.
    + apply (proj1 (Forall_forall _ _)). decide_closed.
  - apply (createGroup_then_deleteGroup dogs "g2" "Dogs");
      solve [decide_closed | reflexivity | apply one_group_db_ok].
Defined.

(** X6: in the relational backend, deleting a video under the id that
    [createVideo] has just returned gives back both tables as they were; only
    the sequence has moved on by one.  The server has to read the decimal
    text of the id back as the number. *)
Theorem createVideo_then_deleteVideo `{Server} (video : obj)
    (db : Postgres.database) (g url username : string) :
  db_ok db →
  Postgres.videos_id_seq db ≤ Postgres.int4_max →
  video !! "groupId" = Some (VStr g) →
  g ∈ Postgres.g_id <$> Postgres.groups db →
  video !! "url" = Some (VStr url) →
  video !! "username" = Some (VStr username) →
  (String.length username ≤ 255)%nat →
  int4in (toString (Postgres.videos_id_seq db)) = Ok (Postgres.videos_id_seq db) →
  ∃ created db1,
    PgStorage.createVideo video db = (Ok created, db1) ∧
    created !! "id" = Some (VStr (toString (Postgres.videos_id_seq db))) ∧
    PgStorage.deleteVideo (toString (Postgres.videos_id_seq db)) db1 =
      (Ok true,
       Postgres.Database (Postgres.groups db) (Postgres.videos db)
         (Postgres.videos_id_seq db + 1)).
Proof.
  intros Hok Hmax Hgroup Hin Hurl Huser Hlen Hread.
  pose proof (pg_createVideo_valid video db g url username
                Hok Hmax Hgroup Hin Hurl Huser Hlen) as Hcreate.
  destruct Hok as (Hg & Hv & Hfk & Hseq & Hgl & Hvl).
  do 2 eexists. split_and!; [exact Hcreate|apply lookup_insert_eq|].
  unfold PgStorage.deleteVideo, Postgres.delete_videos_where. run_query.
  rewrite Hread. simpl.
  rewrite !filter_app, !filter_cons_True, !filter_nil by done.
  rewrite filter_cons_False, filter_nil by (simpl; intros Hn; by apply Hn).
  rewrite (filter_none (λ v, Postgres.v_id v = Postgres.videos_id_seq db))
    by (intros v Hvin Heq; specialize (Hseq v Hvin); lia).
  rewrite (filter_all (λ v, Postgres.v_id v ≠ Postgres.videos_id_seq db))
    by (intros v Hvin Heq; specialize (Hseq v Hvin); lia).
  simpl. by rewrite app_nil_r.
Qed.

Lemma createVideo_then_deleteVideo_witness :
  ∃ created db1,
    PgStorage.createVideo clip one_group_db = (Ok created, db1) ∧
    created !! "id" = Some (VStr (toString (Postgres.videos_id_seq one_group_db))) ∧
    PgStorage.deleteVideo (toString (Postgres.videos_id_seq one_group_db)) db1 =
      (Ok true,
       Postgres.Database (Postgres.groups one_group_db)
         (Postgres.videos one_group_db)
         (Postgres.videos_id_seq one_group_db + 1)).
Proof.
  apply (createVideo_then_deleteVideo clip one_group_db "g1" "http://x" "u");
    solve [decide_closed | reflexivity | apply one_group_db_ok].
Defined.

(** ** Looking a video up by its id *)

(** X7: in the relational backend [updateVideo] and [deleteVideo] throw the
    error of the server, and change nothing, when the server cannot read the
    id as an integer.  With an id it can read and no row of that id they
    change nothing; [deleteVideo] returns [false], and [updateVideo] returns
    [null] when the groupId and the username of the patch fit their
    columns. *)
Theorem video_id_unreadable_or_absent `{Server}
    (id : string) (updates : obj) (db : Postgres.database) :
  (∀ e, int4in id = Throw e →
        PgStorage.updateVideo id updates db = (Throw e, db) ∧
        PgStorage.deleteVideo id db = (Throw e, db)) ∧
  (∀ n, int4in id = Ok n →
        n ∉ Postgres.v_id <$> Postgres.videos db →
        PgStorage.deleteVideo id db = (Ok false, db) ∧
        (fits (updates !! "groupId") → fits (updates !! "username") →
         PgStorage.updateVideo id updates db = (Ok None, db))).
Proof.
  split.
  - intros e He. split.
    + unfold PgStorage.updateVideo, Postgres.update_videos. run_query.
      by rewrite He.
    + unfold PgStorage.deleteVideo, Postgres.delete_videos_where. run_query.
      by rewrite He.
  - intros n Hn Hnone.
    assert (∀ v, v ∈ Postgres.videos db → Postgres.v_id v ≠ n) as Hne.
    { intros v Hv <-. apply Hnone, list_elem_of_fmap. eauto. }
    split.
    + unfold PgStorage.deleteVideo, Postgres.delete_videos_where. run_query.
      rewrite Hn. simpl.
      rewrite (filter_none (λ v, Postgres.v_id v = n)) by done.
      rewrite (filter_all (λ v, Postgres.v_id v ≠ n)) by done.
      by destruct db.
    + intros Hgroup Huser.
      unfold PgStorage.updateVideo, Postgres.update_videos. run_query.
      rewrite Hn. simpl. rewrite !varchar255_fits by done. simpl.
      by rewrite (filter_none (λ v, Postgres.v_id v = n)) by done.
Qed.

Lemma video_id_unreadable_or_absent_witness :
  (PgStorage.updateVideo "nonexistent" clip one_group_db
     = (Throw (DatabaseError invalid_text_representation), one_group_db) ∧
   PgStorage.deleteVideo "nonexistent" one_group_db
     = (Throw (DatabaseError invalid_text_representation), one_group_db)) ∧
  (PgStorage.deleteVideo "7" one_group_db = (Ok false, one_group_db) ∧
   PgStorage.updateVideo "7" clip one_group_db = (Ok None, one_group_db)).
Proof.
  split.
  - apply (proj1 (video_id_unreadable_or_absent "nonexistent" clip one_group_db)).
    reflexivity.
  - destruct (proj2 (video_id_unreadable_or_absent "7" clip one_group_db) 7)
      as [Hdelete Hupdate]; [reflexivity|decide_closed|].
    split; [exact Hdelete|].
    apply Hupdate; intros s [= <-]; decide_closed.
Defined.

(** ** Deleting and updating one video *)

(** X8: [deleteVideo(id)] of the flat-file backend returns [false] and
    writes nothing when no video has [id]; otherwise it removes the first
    video of that id and nothing else.  That of the relational backend, for
    an id the server reads as [n] and a row of that id, removes the rows of
    id [n] from [videos] and leaves [groups] and the sequence alone. *)
Theorem deleteVideo_no_cascade `{Server} (id : string) :
  (∀ file,
     ((∀ v, v ∈ videos file → v !! "id" ≠ Some (VStr id)) →
      FileStorage.deleteVideo id file = (false, file)) ∧
     ((∃ v, v ∈ videos file ∧ v !! "id" = Some (VStr id)) →
      ∃ before v after,
        videos file = before ++ v :: after ∧
        v !! "id" = Some (VStr id) ∧
        (∀ v', v' ∈ before → v' !! "id" ≠ Some (VStr id)) ∧
        FileStorage.deleteVideo id file =
          (true, Dataset (groups file) (before ++ after)))) ∧
  (∀ db n,
     int4in id = Ok n →
     n ∈ Postgres.v_id <$> Postgres.videos db →
     PgStorage.deleteVideo id db =
       (Ok true,
        Postgres.Database (Postgres.groups db)
          (filter (λ v, Postgres.v_id v ≠ n) (Postgres.videos db))
          (Postgres.videos_id_seq db))).
Proof.
  split.
  - intros file. split.
    + intros Hno. unfold FileStorage.deleteVideo, FileStorage.getData.
      assert (findIndex (λ v : obj, strict_eq (v !! "id") (Some (VStr id)))
                (videos file) = None) as ->; [|done].
      apply findIndex_None. intros v Hv. rewrite strict_eq_true. auto.
    + intros (v0 & Hin & Hid).
      destruct (findIndex_is_Some
                  (λ v : obj, strict_eq (v !! "id") (Some (VStr id)))
                  (videos file)) as [i Hi].
      { exists v0. by rewrite strict_eq_true. }
      pose proof Hi as (v & Hl & Hp & Hbefore)%findIndex_Some.
      exists (take i (videos file)), v, (drop (S i) (videos file)).
      split_and!.
      * by rewrite take_drop_middle.
      * by apply strict_eq_true.
      * intros v' Hv'. rewrite <-strict_eq_true. auto.
      * unfold FileStorage.deleteVideo, FileStorage.getData, FileStorage.saveData.
        rewrite Hi. do 2 f_equal. apply delete_take_drop.
  - intros db n Hn (v & -> & Hv)%list_elem_of_fmap.
    unfold PgStorage.deleteVideo, Postgres.delete_videos_where. run_query.
    rewrite Hn. simpl. do 2 f_equal. apply bool_decide_eq_true.
    assert (v ∈ filter (λ v0, Postgres.v_id v0 = Postgres.v_id v)
                  (Postgres.videos db)) as Hhit by (by apply list_elem_of_filter).
    destruct (filter _ _); [by apply elem_of_nil in Hhit|simpl; lia].
Qed.

Lemma deleteVideo_no_cascade_witness :
  (∃ before v after,
     videos one_group_file = before ++ v :: after ∧
     v !! "id" = Some (VStr "1") ∧
     (∀ v', v' ∈ before → v' !! "id" ≠ Some (VStr "1")) ∧
     FileStorage.deleteVideo "1" one_group_file =
       (true, Dataset (groups one_group_file) (before ++ after))) ∧
  PgStorage.deleteVideo "1" one_group_db =
    (Ok true,
     Postgres.Database (Postgres.groups one_group_db)
       (filter (λ v, Postgres.v_id v ≠ 1) (Postgres.videos one_group_db))
       (Postgres.videos_id_seq one_group_db)).
Proof.
  split.
  - apply (deleteVideo_no_cascade "1").
    exists (<["id" := VStr "1"]> clip). split; decide_closed.
  - apply (deleteVideo_no_cascade "1"); solve [decide_closed | reflexivity].
Defined.

(** X9: [updateVideo(id, patch)] of the flat-file backend returns [null]
    and writes nothing when no video has [id]; otherwise it replaces the
    first video of that id by the merge of the patch onto it (fields absent
    from the patch keep their values) and leaves the groups and the other
    videos as they were. *)
Theorem file_updateVideo_merges (id : string) (updates : obj) (file : dataset) :
  ((∀ v, v ∈ videos file → v !! "id" ≠ Some (VStr id)) →
   FileStorage.updateVideo id updates file = (None, file)) ∧
  ((∃ v, v ∈ videos file ∧ v !! "id" = Some (VStr id)) →
   ∃ index v merged,
     videos file !! index = Some v ∧
     v !! "id" = Some (VStr id) ∧
     (∀ v', v' ∈ take index (videos file) → v' !! "id" ≠ Some (VStr id)) ∧
     FileStorage.updateVideo id updates file =
       (Some merged,
        Dataset (groups file) (<[index := merged]> (videos file))) ∧
     ∀ k, merged !! k = match updates !! k with
                        | Some x => Some x
                        | None => v !! k
                        end).
Proof.
  split.
  - intros Hno. unfold FileStorage.updateVideo, FileStorage.getData.
    assert (findIndex (λ v : obj, strict_eq (v !! "id") (Some (VStr id)))
              (videos file) = None) as ->; [|done].
    apply findIndex_None. intros v Hv. rewrite strict_eq_true. auto.
  - intros (v0 & Hin & Hid).
    destruct (findIndex_is_Some
                (λ v : obj, strict_eq (v !! "id") (Some (VStr id)))
                (videos file)) as [i Hi].
    { exists v0. by rewrite strict_eq_true. }
    pose proof Hi as (v & Hl & Hp%strict_eq_true & Hbefore)%findIndex_Some.
    exists i, v, (spread v updates). split_and!; [done|done| | |].
    + intros v' Hv'. rewrite <-strict_eq_true. auto.
    + unfold FileStorage.updateVideo, FileStorage.getData, FileStorage.saveData.
      rewrite Hi, Hl. simpl. f_equal.
      apply list_lookup_insert_eq. by eapply lookup_lt_Some.
    + apply spread_lookup.
Qed.

Lemma file_updateVideo_merges_witness :
  ∃ index v merged,
    videos one_group_file !! index = Some v ∧
    v !! "id" = Some (VStr "1") ∧
    (∀ v', v' ∈ take index (videos one_group_file) →
           v' !! "id" ≠ Some (VStr "1")) ∧
    FileStorage.updateVideo "1" {[ "caption" := VStr "hi" ]} one_group_file =
      (Some merged,
       Dataset (groups one_group_file)
         (<[index := merged]> (videos one_group_file))) ∧
    ∀ k, merged !! k = match ({[ "caption" := VStr "hi" ]} : obj) !! k with
                       | Some x => Some x
                       | None => v !! k
                       end.
Proof.
  apply (file_updateVideo_merges "1" {[ "caption" := VStr "hi" ]} one_group_file).
  exists (<["id" := VStr "1"]> clip). split; decide_closed.
Defined.

(** ** Deleting a group, then listing the videos *)

(** X10: whenever [deleteGroup(id)] answers [true], the list of videos read
    afterwards holds no video whose [groupId] is [id], in both backends. *)
Theorem deleteGroup_then_listVideos `{Server} (id : string) :
  (∀ file file',
     FileStorage.deleteGroup id file = (true, file') →
     ∀ v, v ∈ FileStorage.getVideos file' → v !! "groupId" ≠ Some (VStr id)) ∧
  (∀ db db',
     PgStorage.deleteGroup id db = (Ok true, db') →
     ∃ rows,
       PgStorage.getVideos db' = (Ok rows, db') ∧
       ∀ v, v ∈ rows → v !! "groupId" ≠ Some (VStr id)).
Proof.
  split.
  - intros file file' Hdel v.
    unfold FileStorage.deleteGroup, FileStorage.getData, FileStorage.saveData in Hdel.
    destruct (findIndex _ _); [|done]. injection Hdel as <-.
    unfold FileStorage.getVideos, FileStorage.getData. simpl.
    intros [Hne _]%list_elem_of_filter. by apply strict_eq_false.
  - intros db db' Hdel.
    destruct (decide (id ∈ Postgres.g_id <$> Postgres.groups db)) as [Hin|Hout].
    + rewrite (pg_deleteGroup_present id db Hin) in Hdel.
      injection Hdel as <-. eexists. split; [reflexivity|].
      intros o (v & -> & Hv)%list_elem_of_fmap.
      rewrite merge_sort_Permutation in Hv.
      apply list_elem_of_filter in Hv as [Hne _]. simpl in Hne.
      rewrite lookup_insert_ne by done. unfold Postgres.video_obj.
      rewrite lookup_insert_ne by done. rewrite lookup_insert_eq.
      intros [= Heq]. apply Hne.
      destruct (Postgres.v_group_id v); simpl in Heq; congruence.
    + rewrite (pg_deleteGroup_absent id db Hout) in Hdel. by injection Hdel.
Qed.

Lemma deleteGroup_then_listVideos_witness :
  (∀ v, v ∈ FileStorage.getVideos (Dataset [] []) →
        v !! "groupId" ≠ Some (VStr "g1")) ∧
  ∃ rows,
    PgStorage.getVideos (Postgres.Database [] [] 2)
      = (Ok rows, Postgres.Database [] [] 2) ∧
    ∀ v, v ∈ rows → v !! "groupId" ≠ Some (VStr "g1").
Proof.
  split.
  - apply (proj1 (deleteGroup_then_listVideos "g1") one_group_file).
    reflexivity.
  - apply (proj2 (deleteGroup_then_listVideos "g1") one_group_db).
    reflexivity.
Defined.

(** ** The routes of the monolithic server *)





(** X12: a bulk import whose body has no [groups] array.  The route of the
    monolithic server on the relational backend answers 500 and leaves both
    tables empty, whatever they held; the serverless handler, with a
    connection string and a body without videos either, answers 200 and
    leaves both tables empty as well. *)
Theorem bulk_import_without_groups `{Server}
    (DATABASE_URL : option string) (env : list (string * string))
    (videos : option (list obj)) (db : Postgres.database) :
  App.handle App.createPgStorage DATABASE_URL (App.PUT_data (Body None videos)) db
    = (Reply 500 None (JError "Failed to save data"),
       Postgres.Database [] [] (Postgres.videos_id_seq db)) ∧
  (Db.getPool (Api.DATABASE_URL env) = true →
   Api.data env "PUT" (Body None None) db
     = (Ok (Reply 200 None JSuccess),
        Postgres.Database [] [] (Postgres.videos_id_seq db))).
Proof.
  split.
  - simpl. unfold App.try_route, PgStorage.saveData.
    unfold mbind at 1, Postgres.query_bind at 1.
    unfold Postgres.delete_videos at 1, Postgres.statement at 1.
    unfold mbind at 1, Postgres.query_bind at 1.
    by rewrite delete_groups_all.
  - intros Hpool. unfold Api.data, Api.try_catch, Api.initDb, Db.saveData.
    rewrite Hpool. simpl.
    by rewrite (filter_none (λ _, ¬ True)) by (intros ?? Hn; by apply Hn).
Qed.

Lemma bulk_import_without_groups_witness :
  Api.data [("DATABASE_URL", "postgres://localhost/showthem")] "PUT"
    (Body None None) one_group_db
  = (Ok (Reply 200 None JSuccess),
     Postgres.Database [] [] (Postgres.videos_id_seq one_group_db)).
Proof.
  apply (bulk_import_without_groups None
           [("DATABASE_URL", "postgres://localhost/showthem")] None one_group_db).
  reflexivity.
Defined.

(** ** The serverless handlers *)



(** X14: without a connection string in [DATABASE_URL] every request a
    serverless handler serves is answered with 500 and the database is not
    touched: the handlers of groups and videos report the [TypeError] of
    calling [query] on [null], the bulk handler the error
    'DATABASE_URL not configured'. *)
Theorem handlers_without_connection_string `{Server}
    (env : list (string * string)) (id : string) (sent : obj)
    (payload : body) (db : Postgres.database) :
  Db.getPool (Api.DATABASE_URL env) = false →
  (∀ method, method = "GET" ∨ method = "POST" →
     Api.groups_index env method sent db
       = (Ok (Reply 500 None (JThrown TypeError false)), db)) ∧
  (∀ method, method = "PUT" ∨ method = "DELETE" →
     Api.groups_id env method id sent db
       = (Ok (Reply 500 None (JThrown TypeError false)), db) ∧
     Api.videos_id env method id sent db
       = (Ok (Reply 500 None (JThrown TypeError false)), db)) ∧
  (∀ method, method = "GET" ∨ method = "PUT" →
     Api.data env method payload db
       = (Ok (Reply 500 None (JThrown NotConfigured true)), db)).
Proof.
  intros Hpool.
  unfold Api.groups_index, Api.groups_id, Api.videos_id, Api.data,
    Api.try_catch, Api.initDb, Db.getGroups, Db.createGroup, Db.updateGroup,
    Db.deleteGroup, Db.updateVideo, Db.deleteVideo, Db.getData, Db.saveData.
  rewrite Hpool.
  split_and!; intros method [-> | ->]; try split; reflexivity.
Qed.

Lemma handlers_without_connection_string_witness :
  Api.data [("POSTGRES_URL", "postgres://localhost/showthem")] "GET"
    (Body None None) one_group_db
  = (Ok (Reply 500 None (JThrown NotConfigured true)), one_group_db).
Proof.
  apply (handlers_without_connection_string
           [("POSTGRES_URL", "postgres://localhost/showthem")]
           "g1" cats (Body None None) one_group_db);
    [reflexivity|by left].
Defined.

Lemma same_answer_try {A} (call : Postgres.query A)
    (answer : A → reply) (failure : string) (stack : bool)
    (db : Postgres.database) :
  (∀ a, status (answer a) ≠ 500%nat) →
  same_answer
    (Api.try_catch (call ≫= λ a, mret (answer a))
       (λ err, Reply 500 None (JThrown err stack)) db)
    (App.try_route call answer failure db).
Proof.
  intros Hanswer. unfold same_answer, Api.try_catch, App.try_route.
  unfold mbind, mret, Postgres.query_bind, Postgres.query_ret.
  destruct (call db) as [[a|e] db']; simpl.
  - exists (answer a). by split_and!.
  - eexists. split_and!; [reflexivity|done|done].
Qed.

(** X15: with a connection string configured, the serverless handlers
    answer the requests they serve as the routes of the monolithic server do
    on the relational backend: the same database afterwards, the same status
    and, unless that is 500, the same reply (for a bulk import, on bodies
    that have both arrays). *)
Theorem handlers_answer_as_routes `{Server}
    (env : list (string * string)) (DATABASE_URL : option string)
    (id : string) (sent : obj) (gs vs : list obj) (db : Postgres.database) :
  Db.getPool (Api.DATABASE_URL env) = true →
  let serve := App.handle App.createPgStorage DATABASE_URL in
  same_answer (Api.groups_index env "GET" sent db) (serve App.GET_groups db) ∧
  same_answer (Api.groups_index env "POST" sent db)
    (serve (App.POST_groups sent) db) ∧
  same_answer (Api.groups_id env "PUT" id sent db)
    (serve (App.PUT_groups_id id sent) db) ∧
  same_answer (Api.groups_id env "DELETE" id sent db)
    (serve (App.DELETE_groups_id id) db) ∧
  same_answer (Api.videos_id env "PUT" id sent db)
    (serve (App.PUT_videos_id id sent) db) ∧
  same_answer (Api.videos_id env "DELETE" id sent db)
    (serve (App.DELETE_videos_id id) db) ∧
  same_answer (Api.data env "GET" (Body (Some gs) (Some vs)) db)
    (serve App.GET_data db) ∧
  same_answer (Api.data env "PUT" (Body (Some gs) (Some vs)) db)
    (serve (App.PUT_data (Body (Some gs) (Some vs))) db).
Proof.
  intros Hpool. simpl.
  unfold Api.groups_index, Api.groups_id, Api.videos_id, Api.data, Api.initDb,
    Db.getGroups, Db.createGroup, Db.updateGroup, Db.deleteGroup,
    Db.updateVideo, Db.deleteVideo, Db.getData, Db.saveData.
  rewrite Hpool. simpl.
  split_and!.
  - apply (same_answer_try PgStorage.getGroups). done.
  - apply (same_answer_try (PgStorage.createGroup sent)). done.
  - apply (same_answer_try (PgStorage.updateGroup id sent)). by intros [|].
  - apply (same_answer_try (PgStorage.deleteGroup id)). by intros [|].
  - apply (same_answer_try (PgStorage.updateVideo id sent)). by intros [|].
  - apply (same_answer_try (PgStorage.deleteVideo id)). by intros [|].
  - apply (same_answer_try PgStorage.getData). done.
  - apply (same_answer_try (PgStorage.saveData (Body (Some gs) (Some vs)))). done.
Qed.

Lemma handlers_answer_as_routes_witness :
  same_answer
    (Api.groups_id [("DATABASE_URL", "postgres://localhost/showthem")]
       "DELETE" "g1" cats one_group_db)
    (App.handle App.createPgStorage (Some "postgres://localhost/showthem")
       (App.DELETE_groups_id "g1") one_group_db).
Proof.
  apply (handlers_answer_as_routes
           [("DATABASE_URL", "postgres://localhost/showthem")]
           (Some "postgres://localhost/showthem") "g1" cats [] [] one_group_db).
  reflexivity.
Defined.

(** ** The health probes *)

(** X16: the health route of the monolithic server names the relational
    backend exactly when [start] has chosen it.  The serverless health
    handler names it whenever the db module has a pool, and also when only
    [POSTGRES_URL] is set, where the module has none. *)
Theorem health_and_backend {S B} (storage : App.storage S B) (s : S)
    (DATABASE_URL : option string) (env : list (string * string)) :
  (App.start DATABASE_URL = App.UsePostgres ↔
   App.handle storage DATABASE_URL App.GET_health s
     = (Reply 200 None (JHealth "postgresql" None), s)) ∧
  (App.start DATABASE_URL = App.UseFile ↔
   App.handle storage DATABASE_URL App.GET_health s
     = (Reply 200 None (JHealth "file" None), s)) ∧
  (Db.getPool (Api.DATABASE_URL env) = true →
   ∃ keys, Api.health env = Reply 200 None (JHealth "postgresql" keys)) ∧
  (∀ url, Api.getenv env "DATABASE_URL" = None →
          Api.getenv env "POSTGRES_URL" = Some url → url ≠ "" →
          Db.getPool (Api.DATABASE_URL env) = false ∧
          ∃ keys, Api.health env = Reply 200 None (JHealth "postgresql" keys)).
Proof.
  split_and!.
  - unfold App.start. simpl. destruct (truthy _); split; congruence.
  - unfold App.start. simpl. destruct (truthy _); split; congruence.
  - unfold Db.getPool, Api.DATABASE_URL, Api.health. intros ->. simpl. eauto.
  - intros url Hnone Hsome Hne.
    unfold Db.getPool, Api.DATABASE_URL, Api.health. rewrite Hnone, Hsome. simpl.
    rewrite (bool_decide_eq_false_2 _ Hne). simpl.
    rewrite orb_true_r. eauto.
Qed.

Lemma health_and_backend_witness :
  Db.getPool (Api.DATABASE_URL [("POSTGRES_URL", "postgres://localhost/showthem")])
    = false ∧
  ∃ keys,
    Api.health [("POSTGRES_URL", "postgres://localhost/showthem")]
    = Reply 200 None (JHealth "postgresql" keys).
Proof.
  apply (proj2 (proj2 (proj2
           (health_and_backend (App.fileStorage 0) one_group_file None
              [("POSTGRES_URL", "postgres://localhost/showthem")])))
           "postgres://localhost/showthem");
    solve [decide_closed | reflexivity].
Defined.

Example health_lists_keys :
  Api.health [("PATH", "/usr/bin"); ("POSTGRES_URL", "postgres://h/db");
              ("MY_DATABASE", "x")]
  = Reply 200 None (JHealth "postgresql" (Some "POSTGRES_URL, MY_DATABASE")).
Proof. vm_compute. reflexivity. Qed.
